(** * xhr.js: request wrapper over XMLHttpRequest and bounded pool

    A shallow embedding of [src/xhr.js]: the header parser
    [parseHeaders], the request wrapper [xhrRequest] (its setup block and
    the handlers it registers on the transport) and the class [XHRPool].

    Strings are byte strings (code units below 256), which is what the
    transport hands out for a header block; maps from header names to
    values are [gmap string string]; JS numbers that the code only
    compares and increments are [Z]. *)

From Stdlib Require Import ZArith NArith Ascii String List Bool Lia FunInd.
From stdpp Require Import base option list strings gmap.

Local Open Scope Z_scope.

(* ===================================================================== *)
(** ** The String.prototype methods that xhr.js calls                    *)
(* ===================================================================== *)

Module JSString.

Definition code (c : ascii) : N := N_of_ascii c.

(** Characters below U+0100 that [toLowerCase] changes: A-Z, and the
    Latin-1 capitals U+00C0..U+00DE without the multiplication sign. *)
Definition is_upper (c : ascii) : bool :=
  let n := code c in
  ((65 <=? n) && (n <=? 90) ||
   (192 <=? n) && (n <=? 222) && negb (n =? 215))%N.

Definition lower_char (c : ascii) : ascii :=
  if is_upper c then ascii_of_N (code c + 32) else c.

Fixpoint toLowerCase (s : string) : string :=
  match s with
  | EmptyString => EmptyString
  | String c s' => String (lower_char c) (toLowerCase s')
  end.

(** White space and line terminators below U+0100, as [trim] sees them. *)
Definition is_white_space (c : ascii) : bool :=
  let n := code c in
  ((n =? 9) || (n =? 10) || (n =? 11) || (n =? 12) || (n =? 13) ||
   (n =? 32) || (n =? 160))%N.

Fixpoint trimStart (s : string) : string :=
  match s with
  | EmptyString => EmptyString
  | String c s' => if is_white_space c then trimStart s' else s
  end.

Fixpoint trimEnd (s : string) : string :=
  match s with
  | EmptyString => EmptyString
  | String c s' =>
      match trimEnd s' with
      | EmptyString => if is_white_space c then EmptyString else String c EmptyString
      | t => String c t
      end
  end.

Definition trim (s : string) : string := trimEnd (trimStart s).

(** Put a character in front of the first piece of a split. *)
Definition cons_head (c : ascii) (l : list string) : list string :=
  match l with
  | [] => [String c EmptyString]
  | p :: ps => String c p :: ps
  end.

(** [s.split(/[cls]+/)]: the pieces between the maximal runs of
    characters of the class; a run at either end leaves an empty piece
    there, and the empty string splits into one empty piece. *)
Fixpoint split_class (cls : ascii -> bool) (s : string) : list string :=
  match s with
  | EmptyString => [EmptyString]
  | String c s' =>
      if cls c then
        match s' with
        | String c' _ =>
            if cls c' then split_class cls s'
            else EmptyString :: split_class cls s'
        | EmptyString => EmptyString :: split_class cls s'
        end
      else cons_head c (split_class cls s')
  end.

Fixpoint starts_with (p s : string) : bool :=
  match p, s with
  | EmptyString, _ => true
  | String a p', String b s' => if ascii_dec a b then starts_with p' s' else false
  | String _ _, EmptyString => false
  end.

(** [s.split(sep)] for a string separator that is not empty: the
    occurrences of [sep] are taken left to right without overlap.
    [skip] counts the characters of a matched separator that are still
    to be passed over. *)
Fixpoint split_go (sep : string) (skip : nat) (s : string) : list string :=
  match s with
  | EmptyString => [EmptyString]
  | String c s' =>
      match skip with
      | S k => split_go sep k s'
      | O =>
          if starts_with sep s
          then EmptyString :: split_go sep (Nat.pred (String.length sep)) s'
          else cons_head c (split_go sep 0 s')
      end
  end.

Definition split (sep s : string) : list string := split_go sep 0 s.

(** [parts.join(sep)] *)
Fixpoint join (sep : string) (l : list string) : string :=
  match l with
  | [] => EmptyString
  | [x] => x
  | x :: rest => x +:+ sep +:+ join sep rest
  end.

(** [s.includes(sub)] *)
Fixpoint includes (s sub : string) : bool :=
  starts_with sub s ||
  match s with
  | EmptyString => false
  | String _ s' => includes s' sub
  end.

(** [s.substring(start)] with [0 <= start]; a start past the end gives
    the empty string. *)
Fixpoint substring (start : nat) (s : string) : string :=
  match start, s with
  | O, _ => s
  | S n, String _ s' => substring n s'
  | S _, EmptyString => EmptyString
  end.

(** The first occurrence of [sep] in [s]: what is before it and what is
    after it. *)
Fixpoint find_first (sep s : string) : option (string * string) :=
  if starts_with sep s then Some (EmptyString, substring (String.length sep) s)
  else
    match s with
    | EmptyString => None
    | String c s' =>
        match find_first sep s' with
        | Some (k, v) => Some (String c k, v)
        | None => None
        end
    end.

Definition CR : ascii := ascii_of_N 13.
Definition LF : ascii := ascii_of_N 10.
Definition CRLF : string := String CR (String LF EmptyString).

End JSString.

(* ===================================================================== *)
(** ** parseHeaders                                                       *)
(* ===================================================================== *)

Module Headers.
Import JSString.

(** [headers[k] = v] on an object literal with string [v]: an own
    property is written, except under the name [__proto__], whose
    setter ignores a value that is not an object. *)
Definition obj_set (k v : string) (o : gmap string string) : gmap string string :=
  if decide (k = "__proto__") then o else <[k := v]> o.

(** The body of the arrow function given to [forEach]. *)
Definition parse_line (headers : gmap string string) (line : string)
  : gmap string string :=
  let parts := split ": " line in
  let key := hd EmptyString parts in       (* parts.shift() *)
  let value := join ": " (tl parts) in
  obj_set (toLowerCase key) value headers.

Definition parse_lines (cls : ascii -> bool) (s : string) : gmap string string :=
  foldl parse_line ∅ (split_class cls (trim s)).

(** [parseHeaders(headerStr)]; [None] is a missing block ([null] or
    [undefined]), which is falsy like the empty string.

    The pattern of [headerStr.trim().split(/[...]+/)] cannot be read
    off the source: between the brackets, lines 11-12 have a raw line
    break followed by the escape for line feed, and a raw line break
    does not belong in a regex literal. The character class of the
    pattern is therefore the parameter [cls]; what is proved for every
    [cls] holds however the class is restored. *)
Definition parseHeaders (cls : ascii -> bool) (headerStr : option string)
  : gmap string string :=
  match headerStr with
  | None => ∅
  | Some s => if decide (s = "") then ∅ else parse_lines cls s
  end.

(** Modelled from the spec: the character class of the pattern at lines
    11-12, which the source text leaves unreadable. The spec has the
    header block "split on newlines"; the class holds the two line
    terminators CR and LF, as the pattern [/[\r\n]+/] does. *)
Definition newline_class (c : ascii) : bool :=
  (code c =? 13)%N || (code c =? 10)%N.


(** No character of [s] is in the class. *)
Definition no_char_of (cls : ascii -> bool) (s : string) : Prop :=
  forall c, In c (list_ascii_of_string s) -> cls c = false.

(** [s] does not begin with a character of the class. *)
Definition starts_outside (cls : ascii -> bool) (s : string) : Prop :=
  match s with
  | EmptyString => True
  | String c _ => cls c = false
  end.


(** The name and the value the arrow function of lines 12-17 takes
    from a line. *)
Definition line_name (line : string) : string := hd EmptyString (split ": " line).

Definition line_value (line : string) : string := join ": " (tl (split ": " line)).

(** The lines [forEach] visits for a block that is not empty. *)
Definition lines_of (cls : ascii -> bool) (s : string) : list string :=
  split_class cls (trim s).

Fixpoint all_chars (cls : ascii -> bool) (s : string) : bool :=
  match s with
  | EmptyString => true
  | String c s' => cls c && all_chars cls s'
  end.

Fixpoint has_char (cls : ascii -> bool) (s : string) : bool :=
  match s with
  | EmptyString => false
  | String c s' => cls c || has_char cls s'
  end.

(** The first character of [s] is not white space. *)
Definition starts_clean (s : string) : bool :=
  match s with
  | EmptyString => false
  | String c _ => negb (is_white_space c)
  end.

(** The last character of [s] is not white space. *)
Fixpoint ends_clean (s : string) : bool :=
  match s with
  | EmptyString => false
  | String c EmptyString => negb (is_white_space c)
  | String _ s' => ends_clean s'
  end.

(** A line with no white space around it and no character of the class
    in it. *)
Definition tidy_line (cls : ascii -> bool) (l : string) : bool :=
  starts_clean l && ends_clean l && negb (has_char cls l).

End Headers.

(* ===================================================================== *)
(** ** JS values, exceptions and promises                                 *)
(* ===================================================================== *)

Module JS.

(** The values the wrapper inspects: it only tests them for
    truthiness, for being an object, or passes them on. *)
Inductive jsval : Type :=
| VUndefined
| VNull
| VBool (b : bool)
| VNum (n : Z)
| VStr (s : string)
| VObj (ref : nat).

Global Instance jsval_eq_dec : EqDecision jsval.
Proof. solve_decision. Defined.

Definition truthy (v : jsval) : bool :=
  match v with
  | VUndefined | VNull => false
  | VBool b => b
  | VNum n => negb (n =? 0)
  | VStr s => negb (bool_decide (s = ""))
  | VObj _ => true
  end.

(** [v != null && typeof v === 'object'] *)
Definition is_object (v : jsval) : bool :=
  match v with VObj _ => true | _ => false end.

(** The outcome of a computation that may throw. *)
Inductive res (A : Type) : Type :=
| Ret (a : A)
| Throw (e : jsval).
Global Arguments Ret {A} a.
Global Arguments Throw {A} e.

Definition res_bind {A B} (m : res A) (k : A -> res B) : res B :=
  match m with Ret a => k a | Throw e => Throw e end.

(** A promise settles once: later calls of its resolver or rejecter
    do nothing. *)
Inductive promise (V R : Type) : Type :=
| Pending
| Fulfilled (v : V)
| Rejected (r : R).
Global Arguments Pending {V R}.
Global Arguments Fulfilled {V R} v.
Global Arguments Rejected {V R} r.

Definition resolve {V R} (v : V) (p : promise V R) : promise V R :=
  match p with Pending => Fulfilled v | _ => p end.

Definition reject {V R} (r : R) (p : promise V R) : promise V R :=
  match p with Pending => Rejected r | _ => p end.

Definition settled {V R} (p : promise V R) : bool :=
  match p with Pending => false | _ => true end.

End JS.


(* ===================================================================== *)
(** ** xhrRequest                                                         *)
(* ===================================================================== *)

Module Request.
Import JSString Headers JS.

(** What the handlers read from the transport object when they run.
    [getAllResponseHeaders] is [None] when the transport has no such
    method, and [Some None] when the method returns [null].
    [responseText] is the text the transport holds; the read of
    [xhr.responseText] returns it only while the transport is in text
    mode ([xhr_responseType] empty or ["text"]) and throws otherwise:
    see [get_responseText]. *)
Record XHRView : Type := {
  readyState : Z;
  status : Z;
  statusText : string;
  xhr_responseType : string;
  response : jsval;
  responseText : string;
  getAllResponseHeaders : option (option string)
}.

(** A chunk callback is the caller's code: given the chunks it was
    called with before and the new one, it returns or throws. *)
Definition chunk_fn : Type := list string -> string -> res unit.

(** The destructured options, after the defaults have been applied.
    [onChunk] is [None] when [typeof onChunk] is not ['function']. *)
Record RequestOptions : Type := {
  method : string;
  url : string;
  headers : gmap string string;
  body : jsval;
  timeout : Z;
  withCredentials : jsval;
  responseType : string;
  onProgress : jsval;
  onChunk : option chunk_fn
}.

Definition default_options (u : string) : RequestOptions := {|
  method := "GET";
  url := u;
  headers := ∅;
  body := VNull;
  timeout := 30000;
  withCredentials := VBool false;
  responseType := "json";
  onProgress := VNull;
  onChunk := None
|}.

Record ResponseEnvelope : Type := {
  re_status : Z;
  re_headers : gmap string string;
  re_body : jsval;
  re_xhr : nat
}.

Record FailureEnvelope : Type := {
  fe_status : Z;
  fe_statusText : string;
  fe_body : string;
  fe_headers : gmap string string
}.

(** What the completion token can be rejected with: the object built at
    the non-2xx branch, a [new Error(message)], or whatever the setup
    block caught. *)
Inductive reason : Type :=
| RFailure (f : FailureEnvelope)
| RError (message : string)
| RThrown (e : jsval).

(** Does the rejection value have the status/headers/body shape? *)
Definition has_envelope_shape (r : reason) : bool :=
  match r with RFailure _ => true | _ => false end.

(** The closure state of one request: [lastIndex], the promise, and the
    arguments [onChunk] has been called with so far. *)
Record state : Type := {
  lastIndex : nat;
  token : promise ResponseEnvelope reason;
  chunks : list string
}.

(** Handlers run in a state and exception monad over [state]. *)
Definition M (A : Type) : Type := state -> res A * state.

Definition ret {A} (a : A) : M A := fun st => (Ret a, st).

Definition bind {A B} (m : M A) (k : A -> M B) : M B :=
  fun st => match m st with
            | (Ret a, st') => k a st'
            | (Throw e, st') => (Throw e, st')
            end.

Definition try_catch {A} (m : M A) (handler : jsval -> M A) : M A :=
  fun st => match m st with
            | (Ret a, st') => (Ret a, st')
            | (Throw e, st') => handler e st'
            end.

Definition lift {A} (r : res A) : M A := fun st => (r, st).

Definition get : M state := fun st => (Ret st, st).

Definition set_lastIndex (n : nat) : M unit :=
  fun st => (Ret tt, {| lastIndex := n; token := token st; chunks := chunks st |}).

Definition set_token (f : promise ResponseEnvelope reason -> promise ResponseEnvelope reason)
  : M unit :=
  fun st => (Ret tt, {| lastIndex := lastIndex st; token := f (token st); chunks := chunks st |}).

(** Calling [onChunk(chunk)]: the call is recorded, then the callback
    returns or throws. *)
Definition call_onChunk (cb : chunk_fn) (chunk : string) : M unit :=
  fun st => (cb (chunks st) chunk,
             {| lastIndex := lastIndex st; token := token st;
                chunks := chunks st ++ [chunk] |}).

Notation "'do' x <- m ; k" := (bind m (fun x => k))
  (at level 10, x name, m at level 100, k at level 200).
Notation "m ;; k" := (bind m (fun _ => k))
  (at level 100, k at level 200, right associativity).

Definition when (b : bool) (m : M unit) : M unit := if b then m else ret tt.

(** The transport calls of the setup block, in the order made. *)
Inductive xhr_call : Type :=
| XOpen (m u : string) (async : bool)
| XSetWithCredentials (b : bool)
| XSetTimeout (t : Z)
| XSetResponseType (k : string)
| XSetRequestHeader (k v : string)
| XSend (payload : jsval).

Section Wrapper.

(** The collaborators: the character class of the pattern of
    [parseHeaders], [JSON.parse], [JSON.stringify], the transport's
    verdict on a call given the calls made before ([Some e]: it throws
    [e]), and the transport object the request owns. *)
Variable line_class : ascii -> bool.
Variable JSON_parse : string -> res jsval.
Variable JSON_stringify : jsval -> res jsval.
Variable xhr_throws : list xhr_call -> xhr_call -> option jsval.
Variable xhr : nat.

(** Lines 61-68 on a transport in text mode: the body of a 2xx
    response. *)
Definition decode_try (o : RequestOptions) (x : XHRView) : res jsval :=
  if bool_decide (xhr_responseType x = "json") then Ret (response x)
  else if bool_decide (responseType o = "json") then
    JSON_parse (if bool_decide (responseText x = "") then "null" else responseText x)
  else Ret (if truthy (response x) then response x else VStr (responseText x)).

Definition parsedBody (o : RequestOptions) (x : XHRView) : jsval :=
  match decode_try o x with
  | Ret v => v
  | Throw _ => VStr (responseText x)
  end.

Definition rawHeaders (x : XHRView) : option string :=
  match getAllResponseHeaders x with
  | Some r => r
  | None => Some ""
  end.

Definition is_2xx (s : Z) : bool := (200 <=? s) && (s <? 300).

Definition success_envelope (o : RequestOptions) (x : XHRView) : ResponseEnvelope :=
  {| re_status := status x;
     re_headers := parseHeaders line_class (rawHeaders x);
     re_body := parsedBody o x;
     re_xhr := xhr |}.

Definition failure_envelope (x : XHRView) : FailureEnvelope :=
  {| fe_status := status x;
     fe_statusText := statusText x;
     fe_body := responseText x;
     fe_headers := parseHeaders line_class (rawHeaders x) |}.

(** Lines 49-74 on a transport in text mode, where every read of
    [xhr.responseText] returns the text. *)
Definition onreadystatechange (o : RequestOptions) (x : XHRView) : M unit :=
  when (readyState x =? 3)
    (match onChunk o with
     | Some cb =>
         do st <- get;
         let chunk := substring (lastIndex st) (responseText x) in
         set_lastIndex (String.length (responseText x));;
         try_catch (call_onChunk cb chunk) (fun _ => ret tt)
     | None => ret tt
     end);;
  when (readyState x =? 4)
    (if is_2xx (status x)
     then set_token (resolve (success_envelope o x))
     else set_token (reject (RFailure (failure_envelope x)))).

(** Lines 77-79. *)
Definition onerror : M unit := set_token (reject (RError "Network error")).
Definition ontimeout : M unit := set_token (reject (RError "Timeout")).
Definition onabort : M unit := set_token (reject (RError "Aborted")).

(** What the transport can fire at the request. A progress event goes
    to the caller's [onProgress] directly and runs no code of the
    wrapper. *)
Inductive xhr_event : Type :=
| EvReadyStateChange (x : XHRView)
| EvProgress
| EvError
| EvTimeout
| EvAbort.

Definition handler (o : RequestOptions) (ev : xhr_event) : M unit :=
  match ev with
  | EvReadyStateChange x => onreadystatechange o x
  | EvProgress => ret tt
  | EvError => onerror
  | EvTimeout => ontimeout
  | EvAbort => onabort
  end.

(** The event loop runs one handler to its end; an exception that
    leaves a handler is reported and dropped. *)
Definition fire (o : RequestOptions) (st : state) (ev : xhr_event) : state :=
  snd (handler o ev st).

Definition run (o : RequestOptions) (evs : list xhr_event) (st : state) : state :=
  foldl (fire o) st evs.

(** Line 82. *)
Definition or_else (a : option string) (b : string) : string :=
  match a with
  | Some s => if bool_decide (s = "") then b else s
  | None => b
  end.

Definition ct (h : gmap string string) : string :=
  toLowerCase (or_else (h !! "Content-Type") (or_else (h !! "content-type") "")).

Definition serializes (o : RequestOptions) : bool :=
  is_object (body o) && includes (ct (headers o)) "application/json".

(** Lines 81-85. *)
Definition payload (o : RequestOptions) : res jsval :=
  if serializes o then JSON_stringify (body o) else Ret (body o).

(** A transport call in the setup block: it throws or is appended to
    the calls made. *)
Definition call (c : xhr_call) (made : list xhr_call) : res (list xhr_call) :=
  match xhr_throws made c with
  | Some e => Throw e
  | None => Ret (made ++ [c])
  end.

Fixpoint set_headers (kvs : list (string * string)) (made : list xhr_call)
  : res (list xhr_call) :=
  match kvs with
  | [] => Ret made
  | (k, v) :: rest => res_bind (call (XSetRequestHeader k v) made) (set_headers rest)
  end.

(** Lines 38-87, the [try] block: the transport calls made when it runs
    to its end, or the exception that left it. The headers are set in
    the order of [map_to_list]; nothing below depends on that order.
    The handlers are assigned between the headers and the payload; an
    assignment makes no transport call. *)
Definition setup (o : RequestOptions) : res (list xhr_call) :=
  res_bind (call (XOpen (method o) (url o) true) []) (fun made =>
  res_bind (call (XSetWithCredentials (truthy (withCredentials o))) made) (fun made =>
  res_bind (call (XSetTimeout (timeout o)) made) (fun made =>
  res_bind (if negb (bool_decide (responseType o = "")) &&
               negb (bool_decide (responseType o = "json"))
            then call (XSetResponseType (responseType o)) made
            else Ret made) (fun made =>
  res_bind (set_headers (map_to_list (headers o)) made) (fun made =>
  res_bind (payload o) (fun p =>
  call (XSend p) made)))))).

(** The closure state when [xhrRequest] returns: the [catch] of line 88
    has rejected the promise if the [try] block threw. *)
Definition xhrRequest (o : RequestOptions) : state :=
  {| lastIndex := 0;
     token := match setup o with
              | Ret _ => Pending
              | Throw e => Rejected (RThrown e)
              end;
     chunks := [] |}.

(** The read of [xhr.responseText] as XMLHttpRequest defines it: the
    getter throws an InvalidStateError unless the response type of the
    transport is the empty string or ["text"]. *)
Definition InvalidStateError : jsval := VStr "InvalidStateError".

Definition text_readable (x : XHRView) : bool :=
  bool_decide (xhr_responseType x = "") || bool_decide (xhr_responseType x = "text").

Definition get_responseText (x : XHRView) : res string :=
  if text_readable x then Ret (responseText x) else Throw InvalidStateError.

(** Lines 63-65, the body of the [try], with that getter. *)
Definition decode_xhr (o : RequestOptions) (x : XHRView) : res jsval :=
  if bool_decide (xhr_responseType x = "json") then Ret (response x)
  else if bool_decide (responseType o = "json") then
    res_bind (get_responseText x)
      (fun t => JSON_parse (if bool_decide (t = "") then "null" else t))
  else if truthy (response x) then Ret (response x)
  else res_bind (get_responseText x) (fun t => Ret (VStr t)).

(** Lines 49-74 with that getter. The reads of lines 51, 52 and 71 and
    the read in the [catch] of line 67 stand outside any [try]: when
    one throws, the exception leaves the handler and what follows it in
    the handler does not run. *)
Definition onreadystatechange_xhr (o : RequestOptions) (x : XHRView) : M unit :=
  when (readyState x =? 3)
    (match onChunk o with
     | Some cb =>
         do st <- get;
         do t <- lift (get_responseText x);
         let chunk := substring (lastIndex st) t in
         do t' <- lift (get_responseText x);
         set_lastIndex (String.length t');;
         try_catch (call_onChunk cb chunk) (fun _ => ret tt)
     | None => ret tt
     end);;
  when (readyState x =? 4)
    (if is_2xx (status x)
     then
       do b <- try_catch (lift (decode_xhr o x))
                 (fun _ => do t <- lift (get_responseText x); ret (VStr t));
       set_token (resolve {| re_status := status x;
                             re_headers := parseHeaders line_class (rawHeaders x);
                             re_body := b;
                             re_xhr := xhr |})
     else
       do t <- lift (get_responseText x);
       set_token (reject (RFailure {| fe_status := status x;
                                      fe_statusText := statusText x;
                                      fe_body := t;
                                      fe_headers :=
                                        parseHeaders line_class (rawHeaders x) |}))).

Definition handler_xhr (o : RequestOptions) (ev : xhr_event) : M unit :=
  match ev with
  | EvReadyStateChange x => onreadystatechange_xhr o x
  | EvProgress => ret tt
  | EvError => onerror
  | EvTimeout => ontimeout
  | EvAbort => onabort
  end.

Definition fire_xhr (o : RequestOptions) (st : state) (ev : xhr_event) : state :=
  snd (handler_xhr o ev st).

Definition run_xhr (o : RequestOptions) (evs : list xhr_event) (st : state) : state :=
  foldl (fire_xhr o) st evs.

(** The two halves of [onreadystatechange] as functions on the closure
    state. *)
Definition after_chunk (o : RequestOptions) (x : XHRView) (st : state) : state :=
  if readyState x =? 3 then
    match onChunk o with
    | Some _ =>
        {| lastIndex := String.length (responseText x);
           token := token st;
           chunks := chunks st ++ [substring (lastIndex st) (responseText x)] |}
    | None => st
    end
  else st.

Definition after_done (o : RequestOptions) (x : XHRView) (st : state) : state :=
  if readyState x =? 4 then
    {| lastIndex := lastIndex st;
       token := if is_2xx (status x)
                then resolve (success_envelope o x) (token st)
                else reject (RFailure (failure_envelope x)) (token st);
       chunks := chunks st |}
  else st.

End Wrapper.

(** Does the handler of this event call [resolve] or [reject]? *)
Definition settles (ev : xhr_event) : bool :=
  match ev with
  | EvReadyStateChange x => readyState x =? 4
  | EvProgress => false
  | EvError | EvTimeout | EvAbort => true
  end.

Definition with_onChunk (cb : chunk_fn) (o : RequestOptions) : RequestOptions :=
  {| method := method o; url := url o; headers := headers o; body := body o;
     timeout := timeout o; withCredentials := withCredentials o;
     responseType := responseType o; onProgress := onProgress o;
     onChunk := Some cb |}.


(** A partial-data notification with cumulative text [t]. *)
Definition loading (t : string) : XHRView :=
  {| readyState := 3; status := 200; statusText := "OK"; xhr_responseType := "";
     response := VStr t; responseText := t; getAllResponseHeaders := Some (Some "") |}.




(** The header value line 82 settles on before lower-casing it. *)
Inductive picked_content_type (h : gmap string string) : string -> Prop :=
| picked_capitalised (v : string) :
    h !! "Content-Type" = Some v -> v <> "" -> picked_content_type h v
| picked_lower (v : string) :
    h !! "Content-Type" = None \/ h !! "Content-Type" = Some "" ->
    h !! "content-type" = Some v -> v <> "" -> picked_content_type h v.

(** The condition in the words of the specification: a structured body
    and, under some key that is ["content-type"] up to case, a value
    that declares JSON. *)
Definition spec_serializes (o : RequestOptions) : Prop :=
  is_object (body o) = true /\
  exists k v, headers o !! k = Some v /\ toLowerCase k = "content-type" /\
              includes (toLowerCase v) "application/json" = true.

(** Collaborators and inputs for the examples. *)
Definition parse_only_null : string -> res jsval :=
  fun s => if bool_decide (s = "null") then Ret VNull else Throw (VStr "SyntaxError").

Definition stringify_braces : jsval -> res jsval := fun _ => Ret (VStr "{}").

Definition never_throws : list xhr_call -> xhr_call -> option jsval :=
  fun _ _ => None.

Definition throwing : chunk_fn := fun _ _ => Throw (VStr "boom").

Definition done_view (s : Z) (t : string) : XHRView :=
  {| readyState := 4; status := s; statusText := "";
     xhr_responseType := ""; response := VStr t; responseText := t;
     getAllResponseHeaders := Some (Some "X-Id: 7") |}.

(** The state of the transport after a network failure, a timeout or an
    abort, as XMLHttpRequest leaves it (its request error steps): done,
    status 0, no status text, no headers, no text; [rt] is the response
    type of the transport. *)
Definition error_view (rt : string) : XHRView :=
  {| readyState := 4; status := 0; statusText := "";
     xhr_responseType := rt;
     response := if bool_decide (rt = "") || bool_decide (rt = "text")
                 then VStr "" else VNull;
     responseText := "";
     getAllResponseHeaders := Some (Some "") |}.

(** What XMLHttpRequest fires for such a failure: [readystatechange] in
    that state first, then the event of the failure. *)
Definition failure_run (rt : string) (ev : xhr_event) : list xhr_event :=
  [EvReadyStateChange (error_view rt); ev].

(** A done notification of a transport whose response type is [rt]. *)
Definition done_view_of (rt : string) (s : Z) (body : jsval) : XHRView :=
  {| readyState := 4; status := s; statusText := "";
     xhr_responseType := rt; response := body; responseText := "";
     getAllResponseHeaders := Some (Some "X-Id: 7") |}.

(** A GET that asks for the response in the kind [rt]. *)
Definition get_as (rt : string) : RequestOptions :=
  {| method := "GET"; url := "/api/items"; headers := ∅;
     body := VNull; timeout := 30000; withCredentials := VBool false;
     responseType := rt; onProgress := VNull; onChunk := None |}.

(** A POST of a structured body with one header [k: application/json]. *)
Definition post_json (k : string) : RequestOptions :=
  {| method := "POST"; url := "/api/items";
     headers := {[ k := "application/json" ]};
     body := VObj 0; timeout := 30000; withCredentials := VBool false;
     responseType := "json"; onProgress := VNull; onChunk := None |}.




Definition is_send (c : xhr_call) : bool :=
  match c with XSend _ => true | _ => false end.

Definition header_call (kv : string * string) : xhr_call :=
  XSetRequestHeader (fst kv) (snd kv).

(** The transport refuses [send]. *)
Definition send_throws : list xhr_call -> xhr_call -> option jsval :=
  fun _ c => if is_send c then Some (VStr "InvalidStateError") else None.

End Request.


(* ===================================================================== *)
(** ** XHRPool                                                            *)
(* ===================================================================== *)

Module Pool.
Import JS.

(** What lines 117-128 do with a task factory: the call, the
    destructuring or the chaining of [then] and [catch] throws inside
    the [try], or the handlers end up attached to the promise of a task
    that comes with the object [xhr]. *)
Inductive factory_outcome : Type :=
| FThrows (e : jsval)
| FReturns (xhr : jsval).

(** A queue entry. The [resolve] and [reject] of the entry are those of
    the promise that [enqueue] returned for it; [job_id] names that
    promise. *)
Record PoolJob : Type := {
  job_id : nat;
  createTaskFn : factory_outcome
}.

(** The fields of the class. *)
Record XHRPool : Type := {
  concurrency : Z;
  active : Z;
  queue : list PoolJob
}.

(** [new XHRPool(concurrency)]; the argument is stored as it comes. *)
Definition new_XHRPool (c : option Z) : XHRPool :=
  {| concurrency := default 4 c; active := 0; queue := [] |}.

(** The value [{ result, xhr }] a submission resolves with. *)
Record PoolResult : Type := {
  result : jsval;
  xhr : jsval
}.

(** One admission: the job taken by [queue.shift()] and the value of
    [active] the guard of line 111 compared at that attempt. *)
Record admission : Type := {
  adm_job : nat;
  adm_active : Z
}.

(** The pool with what surrounds it: the promises handed out by
    [enqueue], the tasks that run (a job maps to the [xhr] of its task
    while the promise of the task is pending with the handlers of lines
    119-128 attached), the admissions made so far in order, and the
    number of submissions. *)
Record world : Type := {
  pool : XHRPool;
  tokens : gmap nat (promise PoolResult jsval);
  running : gmap nat jsval;
  admitted : list admission;
  next_id : nat
}.

Definition new_world (c : option Z) : world :=
  {| pool := new_XHRPool c; tokens := ∅; running := ∅; admitted := []; next_id := 0 |}.

Definition with_queue (q : list PoolJob) (w : world) : world :=
  {| pool := {| concurrency := concurrency (pool w);
                active := active (pool w);
                queue := q |};
     tokens := tokens w; running := running w;
     admitted := admitted w; next_id := next_id w |}.

(** [_next()], by recursion on the queue it shifts: the call of line
    132 runs on what is left of the queue. *)
Function next_from (q : list PoolJob) (w : world) {struct q} : world :=
  if concurrency (pool w) <=? active (pool w) then with_queue q w
  else
    match q with
    | [] => with_queue [] w
    | job :: rest =>
        let a := active (pool w) in
        let adm := admitted w ++ [{| adm_job := job_id job; adm_active := a |}] in
        match createTaskFn job with
        | FReturns x =>
            {| pool := {| concurrency := concurrency (pool w);
                          active := a + 1;
                          queue := rest |};
               tokens := tokens w;
               running := <[job_id job := x]> (running w);
               admitted := adm; next_id := next_id w |}
        | FThrows e =>
            next_from rest
              {| pool := {| concurrency := concurrency (pool w);
                            active := a + 1 - 1;
                            queue := rest |};
                 tokens := alter (reject e) (job_id job) (tokens w);
                 running := running w;
                 admitted := adm; next_id := next_id w |}
        end
    end.

Definition _next (w : world) : world := next_from (queue (pool w)) w.

(** [enqueue(createTaskFn)]: the new promise is [next_id w]. *)
Definition enqueue (f : factory_outcome) (w : world) : world :=
  let id := next_id w in
  _next {| pool := {| concurrency := concurrency (pool w);
                      active := active (pool w);
                      queue := queue (pool w) ++ [{| job_id := id; createTaskFn := f |}] |};
           tokens := <[id := Pending]> (tokens w);
           running := running w;
           admitted := admitted w; next_id := S id |}.

(** The handler of [then], lines 119-123, for the task of job [j]. *)
Definition on_fulfilled (j : nat) (r : jsval) (w : world) : world :=
  match running w !! j with
  | Some x =>
      _next {| pool := {| concurrency := concurrency (pool w);
                          active := active (pool w) - 1;
                          queue := queue (pool w) |};
               tokens := alter (resolve {| result := r; xhr := x |}) j (tokens w);
               running := delete j (running w);
               admitted := admitted w; next_id := next_id w |}
  | None => w
  end.

(** The handler of [catch], lines 124-128. *)
Definition on_rejected (j : nat) (err : jsval) (w : world) : world :=
  match running w !! j with
  | Some _ =>
      _next {| pool := {| concurrency := concurrency (pool w);
                          active := active (pool w) - 1;
                          queue := queue (pool w) |};
               tokens := alter (reject err) j (tokens w);
               running := delete j (running w);
               admitted := admitted w; next_id := next_id w |}
  | None => w
  end.

(** What happens to a pool: a submission, or the promise of a running
    task settles. A promise settles once, so an event for a task that
    does not run finds no handler. *)
Inductive event : Type :=
| Enqueue (f : factory_outcome)
| TaskFulfilled (j : nat) (r : jsval)
| TaskRejected (j : nat) (err : jsval).

Definition step (w : world) (ev : event) : world :=
  match ev with
  | Enqueue f => enqueue f w
  | TaskFulfilled j r => on_fulfilled j r w
  | TaskRejected j err => on_rejected j err w
  end.

Definition run_pool (c : option Z) (evs : list event) : world :=
  foldl step (new_world c) evs.

Definition admitted_ids (w : world) : list nat := adm_job <$> admitted w.
Definition queued_ids (w : world) : list nat := job_id <$> queue (pool w).

Definition is_settle (ev : event) (w : world) : Prop :=
  match ev with
  | Enqueue _ => False
  | TaskFulfilled j _ | TaskRejected j _ => is_Some (running w !! j)
  end.

(** What holds of the pool and its surroundings whenever [_next] is
    called and whenever it returns. *)
Record wf (w : world) : Prop := {
  wf_fifo : admitted_ids w ++ queued_ids w = seq 0 (next_id w);
  wf_guard : Forall (fun a => adm_active a < concurrency (pool w)) (admitted w);
  wf_bound : active (pool w) <= Z.max 0 (concurrency (pool w));
  wf_count : active (pool w) + Z.of_nat (length (queue (pool w))) <= Z.of_nat (next_id w);
  wf_running : forall j, is_Some (running w !! j) -> j ∈ admitted_ids w;
  wf_active : active (pool w) = Z.of_nat (size (running w));
  wf_pending : forall j, j ∈ queued_ids w -> tokens w !! j = Some Pending
}.

(** Between two events no job waits while a slot is free. *)
Definition saturated (w : world) : Prop :=
  queue (pool w) = [] \/ concurrency (pool w) <= active (pool w).

(** A pool that has admitted nothing. *)
Record idle (w : world) : Prop := {
  idle_active : active (pool w) = 0;
  idle_running : running w = ∅;
  idle_admitted : admitted w = [];
  idle_queue : queued_ids w = seq 0 (next_id w);
  idle_tokens : forall j, tokens w !! j =
                          if decide (j < next_id w)%nat then Some Pending else None
}.

Definition throws (job : PoolJob) : Prop :=
  exists e, createTaskFn job = FThrows e.

(** A pool of limit 1 whose only task has just finished, at the call
    of [_next]: a job whose factory throws heads the queue, and a job
    whose factory returns waits behind it. *)
Definition after_first_done : world :=
  {| pool := {| concurrency := 1; active := 0;
                queue := [ {| job_id := 1%nat; createTaskFn := FThrows (VStr "boom") |};
                           {| job_id := 2%nat; createTaskFn := FReturns VNull |} ] |};
     tokens := <[2%nat := Pending]>
                 (<[1%nat := Pending]>
                    (<[0%nat := Fulfilled {| result := VNum 1; xhr := VNull |}]> ∅));
     running := ∅;
     admitted := [ {| adm_job := 0%nat; adm_active := 0 |} ];
     next_id := 3 |}.

(** Four submissions to a pool, the second with a factory that throws,
    then the failure of the first task and the completion of the
    third. *)
Definition sample_events : list event :=
  [Enqueue (FReturns VNull); Enqueue (FThrows (VNum 7));
   Enqueue (FReturns VNull); Enqueue (FReturns VNull);
   TaskRejected 0 (VNum 3); TaskFulfilled 2 (VNum 1)].

(** Every submission has a promise, and the pending promises are those
    of the jobs that wait or run. *)
Record accounted (w : world) : Prop := {
  acc_dom : forall j, is_Some (tokens w !! j) <-> (j < next_id w)%nat;
  acc_pending : forall j, tokens w !! j = Some Pending <->
                          j ∈ queued_ids w \/ is_Some (running w !! j)
}.

Definition returns (job : PoolJob) : Prop :=
  exists x, createTaskFn job = FReturns x.

(** Submissions whose factories all return a task. *)
Definition submit_all (xs : list jsval) : list event :=
  (fun x => Enqueue (FReturns x)) <$> xs.

End Pool.

(* ===================================================================== *)
(** ** Facts about the string methods                                     *)
(* ===================================================================== *)

Module JSStringFacts.
Import JSString.

Lemma app_cons (a : ascii) (s t : string) : String a s +:+ t = String a (s +:+ t).
Proof. reflexivity. Qed.

Lemma app_nil (t : string) : "" +:+ t = t.
Proof. reflexivity. Qed.



Lemma starts_with_app (p t : string) : starts_with p (p +:+ t) = true.
Proof.
  induction p as [|a p IH]; [reflexivity|].
  rewrite app_cons. simpl.
  destruct (ascii_dec a a); [exact IH | congruence].
Qed.

Lemma starts_with_inv (p s : string) :
  starts_with p s = true -> s = p +:+ substring (String.length p) s.
Proof.
  revert s; induction p as [|a p IH]; intros s H; [reflexivity|].
  destruct s as [|b s]; [discriminate|]. simpl in H.
  destruct (ascii_dec a b) as [->|]; [|discriminate].
  rewrite app_cons. simpl. f_equal. apply IH, H.
Qed.

Lemma substring_app (u t : string) : substring (String.length u) (u +:+ t) = t.
Proof.
  induction u as [|a u IH]; [now destruct t|].
  rewrite app_cons. exact IH.
Qed.



Lemma str_app_length (a b : string) :
  String.length (a +:+ b) = (String.length a + String.length b)%nat.
Proof.
  induction a as [|x a IH]; [reflexivity|].
  rewrite app_cons. simpl. now rewrite IH.
Qed.

(** Passing over the rest of a matched separator. *)
Lemma split_go_skip (sep u t : string) :
  split_go sep (String.length u) (u +:+ t) = split_go sep 0 t.
Proof.
  induction u as [|a u IH]; [reflexivity|].
  rewrite app_cons. exact IH.
Qed.

Lemma find_first_sound (sep s k v : string) :
  find_first sep s = Some (k, v) -> s = k +:+ sep +:+ v.
Proof.
  revert k v; induction s as [|c s IH]; intros k v; simpl.
  - destruct (starts_with sep "") eqn:E; [|discriminate].
    intros [= <- <-]. rewrite app_nil. now apply starts_with_inv in E.
  - destruct (starts_with sep (String c s)) eqn:E.
    + intros [= <- <-]. rewrite app_nil. now apply starts_with_inv in E.
    + destruct (find_first sep s) as [[k' v']|]; [|discriminate].
      intros [= <- <-]. rewrite app_cons. f_equal. now apply IH.
Qed.

Lemma find_first_shorter (a : ascii) (sep s k v : string) :
  find_first (String a sep) s = Some (k, v) ->
  (String.length v < String.length s)%nat.
Proof.
  intros H. apply find_first_sound in H. subst s.
  rewrite !str_app_length. simpl. lia.
Qed.

(** [split] cuts at the first occurrence and goes on after it. *)
Lemma split_find_first (a : ascii) (sep' s : string) :
  split (String a sep') s =
  match find_first (String a sep') s with
  | Some (k, v) => k :: split (String a sep') v
  | None => [s]
  end.
Proof.
  unfold split. induction s as [|c s IH]; [reflexivity|].
  cbn [split_go find_first].
  destruct (starts_with (String a sep') (String c s)) eqn:E.
  - f_equal. pose proof (starts_with_inv _ _ E) as Hs.
    rewrite app_cons in Hs. cbn [String.length substring] in *.
    injection Hs as _ Hs. rewrite Hs at 1.
    cbn [Nat.pred]. apply split_go_skip.
  - rewrite IH. destruct (find_first (String a sep') s) as [[k v]|]; reflexivity.
Qed.

Lemma split_nonempty (a : ascii) (sep' s : string) : split (String a sep') s <> [].
Proof.
  rewrite split_find_first.
  destruct (find_first _ s) as [[k v]|]; discriminate.
Qed.

Lemma join_cons (sep x : string) (l : list string) :
  l <> [] -> join sep (x :: l) = x +:+ sep +:+ join sep l.
Proof. destruct l; [congruence | reflexivity]. Qed.

(** Joining the pieces with the separator gives the string back. *)
Lemma join_split (a : ascii) (sep' s : string) :
  join (String a sep') (split (String a sep') s) = s.
Proof.
  remember (String.length s) as n eqn:Hn.
  revert s Hn; induction n as [n IH] using lt_wf_ind; intros s ->.
  rewrite split_find_first.
  destruct (find_first (String a sep') s) as [[k v]|] eqn:E; [|reflexivity].
  rewrite join_cons by apply split_nonempty.
  rewrite (IH (String.length v)); [|eapply find_first_shorter; eauto | reflexivity].
  symmetry. now apply find_first_sound.
Qed.

End JSStringFacts.

(* ===================================================================== *)
(** ** Facts about parseHeaders                                           *)
(* ===================================================================== *)

Module HeadersFacts.
Import JSString Headers JSStringFacts.

(** A line ends at a character of the class. *)
Lemma split_class_line (cls : ascii -> bool) (a : string) (c : ascii) (b : string) :
  no_char_of cls a -> cls c = true -> starts_outside cls b ->
  split_class cls (a +:+ String c b) = a :: split_class cls b.
Proof.
  intros Ha Hc Hb. induction a as [|x a IH].
  - rewrite app_nil. cbn [split_class]. rewrite Hc.
    destruct b as [|c' b']; [reflexivity|]. simpl in Hb. now rewrite Hb.
  - rewrite app_cons. cbn [split_class].
    rewrite (Ha x) by (simpl; auto).
    rewrite IH; [reflexivity|].
    intros y Hy. apply Ha. simpl. auto.
Qed.

(** A line is cut at its first [": "]; a line without one is a name
    with the empty value. *)
Lemma parse_line_first (h : gmap string string) (line : string) :
  parse_line h line =
  match find_first ": " line with
  | Some (name, value) => obj_set (toLowerCase name) value h
  | None => obj_set (toLowerCase line) "" h
  end.
Proof.
  unfold parse_line. rewrite split_find_first.
  destruct (find_first ": " line) as [[k v]|]; [|reflexivity].
  cbn [hd tl]. now rewrite join_split.
Qed.

Lemma parse_line_name_value (h : gmap string string) (name value : string) :
  find_first ": " name = None ->
  parse_line h (name +:+ ": " +:+ value) = obj_set (toLowerCase name) value h.
Proof.
  intros Hn. rewrite parse_line_first.
  assert (find_first ": " (name +:+ ": " +:+ value) = Some (name, value)) as ->;
    [|reflexivity].
  induction name as [|c name IH].
  - rewrite app_nil. reflexivity.
  - rewrite app_cons. cbn [find_first] in *.
    destruct (starts_with ": " (String c name)) eqn:E; [discriminate|].
    destruct (find_first ": " name) as [[k v]|] eqn:F; [discriminate|].
    assert (starts_with ": " (String c (name +:+ ": " +:+ value)) = false) as ->.
    { cbn [starts_with] in *. destruct (ascii_dec ":" c); [|reflexivity].
      destruct name as [|d name].
      - rewrite app_nil. cbn [starts_with].
        destruct (ascii_dec " " ":") as [Heq|]; [discriminate Heq | reflexivity].
      - rewrite app_cons. cbn [starts_with] in *.
        destruct (ascii_dec " " d); [discriminate E | reflexivity]. }
    now rewrite IH.
Qed.

Lemma parseHeaders_missing (cls : ascii -> bool) : parseHeaders cls None = ∅.
Proof. reflexivity. Qed.

Lemma parseHeaders_empty (cls : ascii -> bool) : parseHeaders cls (Some "") = ∅.
Proof. reflexivity. Qed.




End HeadersFacts.

(* ===================================================================== *)
(** ** Facts about xhrRequest                                             *)
(* ===================================================================== *)

Module RequestFacts.
Import JSString Headers JS Request JSStringFacts HeadersFacts.

Section Handlers.

Variable line_class : ascii -> bool.
Variable JSON_parse : string -> res jsval.
Variable JSON_stringify : jsval -> res jsval.
Variable xhr_throws : list xhr_call -> xhr_call -> option jsval.
Variable xhr : nat.

Local Abbreviation parseHeaders := (Headers.parseHeaders line_class).
Local Abbreviation onreadystatechange :=
  (Request.onreadystatechange line_class JSON_parse xhr).
Local Abbreviation handler := (Request.handler line_class JSON_parse xhr).
Local Abbreviation fire := (Request.fire line_class JSON_parse xhr).
Local Abbreviation run := (Request.run line_class JSON_parse xhr).
Local Abbreviation after_done := (Request.after_done line_class JSON_parse xhr).
Local Abbreviation success_envelope :=
  (Request.success_envelope line_class JSON_parse xhr).
Local Abbreviation failure_envelope := (Request.failure_envelope line_class).

(** The handler returns normally whatever the chunk callback does, and
    leaves the state that the two halves describe. *)
Lemma onreadystatechange_eq (o : RequestOptions) (x : XHRView) (st : state) :
  onreadystatechange o x st = (Ret tt, after_done o x (after_chunk o x st)).
Proof.
  unfold Request.onreadystatechange, Request.after_done, after_chunk, bind, when.
  destruct (readyState x =? 3) eqn:E3.
  - assert ((readyState x =? 4) = false) as E4 by lia. rewrite E4.
    destruct (onChunk o) as [cb|]; [|reflexivity].
    unfold get, set_lastIndex, try_catch, call_onChunk, ret; simpl.
    destruct (cb (chunks st) _); reflexivity.
  - unfold ret. destruct (readyState x =? 4); [|reflexivity].
    destruct (is_2xx (status x)); reflexivity.
Qed.


Lemma fire_readystatechange (o : RequestOptions) (x : XHRView) (st : state) :
  fire o st (EvReadyStateChange x) = after_done o x (after_chunk o x st).
Proof. unfold Request.fire. simpl. now rewrite onreadystatechange_eq. Qed.

Lemma token_after_chunk (o : RequestOptions) (x : XHRView) (st : state) :
  token (after_chunk o x st) = token st.
Proof.
  unfold after_chunk. destruct (readyState x =? 3); [|reflexivity].
  destruct (onChunk o); reflexivity.
Qed.

(** An event whose handler calls neither [resolve] nor [reject]. *)
Lemma fire_keeps_token (o : RequestOptions) (ev : xhr_event) (st : state) :
  settles ev = false -> token (fire o st ev) = token st.
Proof.
  destruct ev as [x| | | |]; simpl; intros H; try discriminate; [|reflexivity].
  rewrite fire_readystatechange. unfold Request.after_done. rewrite H.
  apply token_after_chunk.
Qed.

Lemma run_keeps_token (o : RequestOptions) (evs : list xhr_event) (st : state) :
  Forall (fun ev => settles ev = false) evs -> token (run o evs st) = token st.
Proof.
  unfold Request.run.
  revert st; induction evs as [|ev evs IH]; intros st H; [reflexivity|].
  inversion H as [|? ? Hev Hrest]; subst. cbn [foldl].
  rewrite IH by assumption. now apply fire_keeps_token.
Qed.

(** A settled promise stays as it is. *)
Lemma fire_settled (o : RequestOptions) (ev : xhr_event) (st : state) :
  settled (token st) = true -> token (fire o st ev) = token st.
Proof.
  intros H. destruct ev as [x| | | |].
  - rewrite fire_readystatechange. unfold Request.after_done.
    destruct (readyState x =? 4); [|apply token_after_chunk].
    simpl. rewrite token_after_chunk.
    destruct (token st); [discriminate|..]; now destruct (is_2xx _).
  - reflexivity.
  - unfold Request.fire; simpl. now destruct (token st).
  - unfold Request.fire; simpl. now destruct (token st).
  - unfold Request.fire; simpl. now destruct (token st).
Qed.

Lemma run_settled (o : RequestOptions) (evs : list xhr_event) (st : state) :
  settled (token st) = true -> token (run o evs st) = token st.
Proof.
  unfold Request.run.
  revert st; induction evs as [|ev evs IH]; intros st H; [reflexivity|].
  cbn [foldl]. rewrite IH.
  - now apply fire_settled.
  - now rewrite fire_settled.
Qed.

(** The first settling event decides the promise. *)
Lemma run_first_settling (o : RequestOptions) (pre post : list xhr_event)
    (ev : xhr_event) (st : state) :
  Forall (fun e => settles e = false) pre ->
  settled (token (fire o (run o pre st) ev)) = true ->
  token (run o (pre ++ ev :: post) st) = token (fire o (run o pre st) ev).
Proof.
  intros Hpre Hset. unfold Request.run. rewrite foldl_app. simpl.
  now apply run_settled.
Qed.

Lemma is_2xx_true (s : Z) : is_2xx s = true <-> 200 <= s < 300.
Proof. unfold is_2xx. lia. Qed.

(** The three ways the body of a 2xx response is obtained. *)
Lemma parsedBody_cases (o : RequestOptions) (x : XHRView) :
  (xhr_responseType x = "json" -> parsedBody JSON_parse o x = response x) /\
  (xhr_responseType x <> "json" -> responseType o = "json" ->
     parsedBody JSON_parse o x =
       match JSON_parse (if bool_decide (responseText x = "") then "null"
                         else responseText x) with
       | Ret v => v
       | Throw _ => VStr (responseText x)
       end) /\
  (xhr_responseType x <> "json" -> responseType o <> "json" ->
     parsedBody JSON_parse o x =
       if truthy (response x) then response x else VStr (responseText x)).
Proof.
  unfold parsedBody, decode_try. repeat split; intros.
  - now rewrite bool_decide_eq_true_2.
  - rewrite bool_decide_eq_false_2 by assumption.
    now rewrite bool_decide_eq_true_2.
  - now rewrite !bool_decide_eq_false_2 by assumption.
Qed.








Lemma includes_empty_json : includes (toLowerCase "") "application/json" = false.
Proof. reflexivity. Qed.

(** Line 83 in terms of the header value line 82 picks. *)
Lemma serializes_iff (o : RequestOptions) :
  serializes o = true <->
  is_object (body o) = true /\
  exists v, picked_content_type (headers o) v /\
            includes (toLowerCase v) "application/json" = true.
Proof.
  unfold serializes, ct. rewrite andb_true_iff.
  split; intros [Hobj H]; (split; [exact Hobj|]).
  - unfold or_else in H.
    destruct (headers o !! "Content-Type") as [v|] eqn:E1.
    + case_bool_decide as Hv.
      * destruct (headers o !! "content-type") as [v'|] eqn:E2.
        -- case_bool_decide as Hv'; [now rewrite includes_empty_json in H|].
           exists v'. split; [|exact H]. subst v.
           apply picked_lower; auto.
        -- now rewrite includes_empty_json in H.
      * exists v. split; [|exact H]. now apply picked_capitalised.
    + destruct (headers o !! "content-type") as [v'|] eqn:E2.
      * case_bool_decide as Hv'; [now rewrite includes_empty_json in H|].
        exists v'. split; [|exact H]. apply picked_lower; auto.
      * now rewrite includes_empty_json in H.
  - destruct H as (v & Hp & Hinc). unfold or_else.
    destruct Hp as [v E1 Hv | v E1 E2 Hv].
    + rewrite E1. now rewrite bool_decide_eq_false_2.
    + destruct E1 as [E1|E1]; rewrite E1, E2; simpl;
        now rewrite bool_decide_eq_false_2.
Qed.

Lemma call_last (c : xhr_call) (made made' : list xhr_call) :
  call xhr_throws c made = Ret made' -> last made' = Some c.
Proof.
  unfold call. destruct (xhr_throws made c); [discriminate|].
  intros [= <-]. apply last_snoc.
Qed.

(** When the setup block runs to its end, its last transport call is
    [send] with the payload of lines 81-85. *)
Lemma setup_sends (o : RequestOptions) (made : list xhr_call) :
  setup JSON_stringify xhr_throws o = Ret made ->
  exists p, last made = Some (XSend p) /\ payload JSON_stringify o = Ret p.
Proof.
  unfold setup, res_bind. intros H.
  repeat match type of H with
         | match ?m with Ret _ => _ | Throw _ => _ end = Ret _ =>
             let E := fresh "E" in
             destruct m eqn:E; [|discriminate]
         end.
  eexists. split; [eapply call_last; exact H | reflexivity].
Qed.

(** C5, as the code has it. When the setup block reaches [send], the
    payload is [JSON.stringify(body)] if the body is a non-null object
    and the header value found under the key spelled exactly
    [Content-Type], or else (when that one is absent or empty) under
    [content-type], contains [application/json] once lower-cased; in
    every other case the payload is the body as given. *)
Theorem body_serialized_iff (o : RequestOptions) (made : list xhr_call) :
  setup JSON_stringify xhr_throws o = Ret made ->
  let json_declared :=
    is_object (body o) = true /\
    exists v, picked_content_type (headers o) v /\
              includes (toLowerCase v) "application/json" = true in
  exists p, last made = Some (XSend p) /\
            (json_declared -> JSON_stringify (body o) = Ret p) /\
            (~ json_declared -> p = body o).
Proof.
  intros H jd. destruct (setup_sends o made H) as (p & Hlast & Hp).
  exists p. split; [exact Hlast|]. unfold payload in Hp.
  subst jd. rewrite <- serializes_iff. split; intros Hs.
  - now rewrite Hs in Hp.
  - destruct (serializes o); [congruence|]. congruence.
Qed.

(** *** The handlers with the getter of XMLHttpRequest *)

Local Abbreviation onreadystatechange_xhr :=
  (Request.onreadystatechange_xhr line_class JSON_parse xhr).
Local Abbreviation handler_xhr := (Request.handler_xhr line_class JSON_parse xhr).
Local Abbreviation fire_xhr := (Request.fire_xhr line_class JSON_parse xhr).
Local Abbreviation run_xhr := (Request.run_xhr line_class JSON_parse xhr).

Lemma text_readable_not_json (x : XHRView) :
  text_readable x = true -> xhr_responseType x <> "json".
Proof.
  unfold text_readable. intros H Hj. rewrite Hj in H. discriminate.
Qed.

(** In text mode the getter returns, and the handler is the one of the
    text-mode model. *)
Lemma onreadystatechange_xhr_text (o : RequestOptions) (x : XHRView) (st : state) :
  text_readable x = true ->
  onreadystatechange_xhr o x st = onreadystatechange o x st.
Proof.
  intros Hr. pose proof (text_readable_not_json x Hr) as Hj.
  rewrite onreadystatechange_eq.
  unfold Request.onreadystatechange_xhr, Request.after_done, after_chunk.
  unfold bind, when, lift, get_responseText. rewrite Hr.
  destruct (readyState x =? 3) eqn:E3.
  - assert ((readyState x =? 4) = false) as E4 by lia. rewrite E4.
    destruct (onChunk o) as [cb|]; [|reflexivity].
    unfold get, set_lastIndex, try_catch, call_onChunk, ret; simpl.
    destruct (cb (chunks st) _); reflexivity.
  - unfold ret. destruct (readyState x =? 4); [|reflexivity].
    destruct (is_2xx (status x)); [|reflexivity].
    unfold try_catch, decode_xhr, set_token, Request.success_envelope,
      parsedBody, decode_try, get_responseText.
    rewrite Hr, (bool_decide_eq_false_2 _ Hj).
    destruct (bool_decide (responseType o = "json")); cbn [res_bind].
    + destruct (JSON_parse _); reflexivity.
    + destruct (truthy (response x)); reflexivity.
Qed.

Lemma fire_xhr_text (o : RequestOptions) (x : XHRView) (st : state) :
  text_readable x = true ->
  fire_xhr o st (EvReadyStateChange x) = fire o st (EvReadyStateChange x).
Proof.
  intros Hr. unfold Request.fire_xhr, Request.fire. cbn [Request.handler_xhr Request.handler].
  now rewrite onreadystatechange_xhr_text.
Qed.

(** Out of text mode, a done notification with a status that is not 2xx
    throws at the read of line 71, before [reject] is reached. *)
Lemma onreadystatechange_xhr_no_text (o : RequestOptions) (x : XHRView) (st : state) :
  readyState x = 4 -> is_2xx (status x) = false -> text_readable x = false ->
  onreadystatechange_xhr o x st = (Throw InvalidStateError, st).
Proof.
  intros H4 Hs Hr. unfold Request.onreadystatechange_xhr.
  unfold bind, when, lift, get_responseText, ret.
  assert ((readyState x =? 3) = false) as -> by lia.
  assert ((readyState x =? 4) = true) as -> by lia.
  now rewrite Hs, Hr.
Qed.

Lemma token_fire_xhr_settled (o : RequestOptions) (ev : xhr_event) (st : state) :
  settled (token st) = true -> token (fire_xhr o st ev) = token st.
Proof.
  intros H. destruct ev as [x| | | |];
    try (unfold Request.fire_xhr; simpl; now destruct (token st)).
  destruct (text_readable x) eqn:Hr.
  - rewrite fire_xhr_text by assumption. now apply fire_settled.
  - unfold Request.fire_xhr. cbn [Request.handler_xhr].
    unfold Request.onreadystatechange_xhr, bind, when, lift, get_responseText.
    rewrite Hr. destruct (readyState x =? 3) eqn:E3.
    + assert ((readyState x =? 4) = false) as E4 by lia. rewrite E4.
      destruct (onChunk o); reflexivity.
    + unfold ret. destruct (readyState x =? 4); [|reflexivity].
      destruct (is_2xx (status x)); [|reflexivity].
      unfold try_catch, decode_xhr, set_token, get_responseText. rewrite Hr.
      destruct (bool_decide (xhr_responseType x = "json"));
        [simpl; now destruct (token st)|].
      destruct (bool_decide (responseType o = "json")); [reflexivity|].
      destruct (truthy (response x)); [simpl; now destruct (token st) | reflexivity].
Qed.

Lemma run_xhr_settled (o : RequestOptions) (evs : list xhr_event) (st : state) :
  settled (token st) = true -> token (run_xhr o evs st) = token st.
Proof.
  unfold Request.run_xhr.
  revert st; induction evs as [|ev evs IH]; intros st H; [reflexivity|].
  cbn [foldl]. rewrite IH.
  - now apply token_fire_xhr_settled.
  - now rewrite token_fire_xhr_settled.
Qed.

Lemma run_xhr_cons (o : RequestOptions) (ev : xhr_event) (evs : list xhr_event)
    (st : state) :
  run_xhr o (ev :: evs) st = run_xhr o evs (fire_xhr o st ev).
Proof. reflexivity. Qed.

Lemma fire_xhr_no_text (o : RequestOptions) (x : XHRView) (st : state) :
  readyState x = 4 -> ~ 200 <= status x < 300 -> text_readable x = false ->
  fire_xhr o st (EvReadyStateChange x) = st.
Proof.
  intros H4 Hs Hr.
  assert (is_2xx (status x) = false) as Hs'.
  { destruct (is_2xx (status x)) eqn:E; [|reflexivity].
    apply is_2xx_true in E. contradiction. }
  unfold Request.fire_xhr. cbn [Request.handler_xhr].
  now rewrite onreadystatechange_xhr_no_text.
Qed.

(** C3. On a transport that is not in text mode (response type other
    than the empty string and ["text"], as after
    [xhrRequest({ responseType: 'arraybuffer' })]), a done notification
    whose status is not 2xx does not reject the completion token: the
    read of [xhr.responseText] at line 71 throws, the exception leaves
    the handler before [reject] is called, and the closure state, the
    token with it, is what it was. *)
Theorem done_without_text_never_rejects (o : RequestOptions) (x : XHRView)
    (st : state) :
  readyState x = 4 ->
  ~ 200 <= status x < 300 ->
  text_readable x = false ->
  fst (handler_xhr o (EvReadyStateChange x) st) = Throw InvalidStateError /\
  fire_xhr o st (EvReadyStateChange x) = st.
Proof.
  intros H4 Hs Hr.
  assert (is_2xx (status x) = false) as Hs'.
  { destruct (is_2xx (status x)) eqn:E; [|reflexivity].
    apply is_2xx_true in E. contradiction. }
  unfold Request.fire_xhr. cbn [Request.handler_xhr].
  now rewrite onreadystatechange_xhr_no_text.
Qed.

(** C8. In text mode, when the done notification with a status that is
    not 2xx (status 0 after a network failure, a timeout or an abort)
    reaches a pending request before the event of the failure, as
    XMLHttpRequest fires them, the completion token is rejected with
    the failure envelope of that notification, and whichever event
    follows, [error], [timeout] or [abort], leaves it so: the plain
    error of lines 77-79 never becomes the rejection. *)
Theorem failure_after_done_gives_envelope (o : RequestOptions) (x : XHRView)
    (ev : xhr_event) (later : list xhr_event) (st : state) :
  token st = Pending ->
  readyState x = 4 ->
  ~ 200 <= status x < 300 ->
  text_readable x = true ->
  token (run_xhr o (EvReadyStateChange x :: ev :: later) st) =
    Rejected (RFailure {| fe_status := status x;
                          fe_statusText := statusText x;
                          fe_body := responseText x;
                          fe_headers := parseHeaders (rawHeaders x) |}).
Proof.
  intros Hp H4 Hs Hr.
  assert (is_2xx (status x) = false) as Hs'.
  { destruct (is_2xx (status x)) eqn:E; [|reflexivity].
    apply is_2xx_true in E. contradiction. }
  unfold Request.run_xhr. cbn [foldl].
  assert (token (fire_xhr o st (EvReadyStateChange x)) =
          Rejected (RFailure (failure_envelope x))) as Hdone.
  { rewrite fire_xhr_text by assumption. rewrite fire_readystatechange.
    unfold Request.after_done.
    assert ((readyState x =? 4) = true) as -> by lia.
    cbn [token]. now rewrite Hs', token_after_chunk, Hp. }
  fold (Request.run_xhr line_class JSON_parse xhr o later
          (fire_xhr o (fire_xhr o st (EvReadyStateChange x)) ev)).
  rewrite run_xhr_settled; rewrite token_fire_xhr_settled; rewrite Hdone; reflexivity.
Qed.

End Handlers.

Lemma done_without_text_never_rejects_witness :
  let o := get_as "arraybuffer" in
  let st := xhrRequest stringify_braces never_throws o in
  let x := done_view_of "arraybuffer" 404 (VObj 1) in
  fst (Request.handler_xhr newline_class parse_only_null 7 o (EvReadyStateChange x) st)
    = Throw InvalidStateError /\
  token (Request.fire_xhr newline_class parse_only_null 7 o st (EvReadyStateChange x))
    = Pending.
Proof.
  intros o st x.
  destruct (done_without_text_never_rejects newline_class parse_only_null 7 o x st)
    as [H1 H2]; [reflexivity | simpl; lia | reflexivity |].
  split; [exact H1 | now rewrite H2].
Defined.

(** A request in text mode: the three failures, fired the way
    XMLHttpRequest fires them, leave one and the same rejection. *)
Lemma failure_after_done_gives_envelope_witness :
  let o := post_json "Content-Type" in
  let st := xhrRequest stringify_braces never_throws o in
  let envelope := Rejected (RFailure {| fe_status := 0; fe_statusText := "";
                                        fe_body := ""; fe_headers := ∅ |}) in
  token (Request.run_xhr newline_class parse_only_null 7 o (failure_run "" EvError) st)
    = envelope /\
  token (Request.run_xhr newline_class parse_only_null 7 o (failure_run "" EvTimeout) st)
    = envelope /\
  token (Request.run_xhr newline_class parse_only_null 7 o (failure_run "" EvAbort) st)
    = envelope.
Proof.
  intros o st envelope.
  split; [|split];
    apply (failure_after_done_gives_envelope newline_class parse_only_null 7 o
             (error_view "") _ [] st);
    try reflexivity; simpl; lia.
Defined.

(** A callback that throws at every call: both chunks are delivered and
    the request resolves at the done notification. *)
Lemma throwing_callback_example :
  let o := with_onChunk throwing (post_json "Content-Type") in
  let st := Request.run newline_class parse_only_null 7 o
              [EvReadyStateChange (loading "nu");
               EvReadyStateChange (loading "null");
               EvReadyStateChange (done_view 200 "null")]
              (xhrRequest stringify_braces never_throws o) in
  chunks st = ["nu"; "ll"] /\ lastIndex st = 4%nat /\
  token st = Fulfilled {| re_status := 200;
                          re_headers := parseHeaders newline_class (Some "X-Id: 7");
                          re_body := VNull;
                          re_xhr := 7 |}.
Proof. repeat split. Qed.



Lemma body_serialized_iff_witness :
  exists p,
    last [XOpen "POST" "/api/items" true; XSetWithCredentials false;
          XSetTimeout 30000;
          XSetRequestHeader "Content-Type" "application/json";
          XSend (VStr "{}")] = Some (XSend p) /\
    ((is_object (VObj 0) = true /\
      exists v, picked_content_type {[ "Content-Type" := "application/json" ]} v /\
                includes (toLowerCase v) "application/json" = true) ->
     stringify_braces (VObj 0) = Ret p) /\
    (~ (is_object (VObj 0) = true /\
        exists v, picked_content_type {[ "Content-Type" := "application/json" ]} v /\
                  includes (toLowerCase v) "application/json" = true) ->
     p = VObj 0).
Proof.
  refine (body_serialized_iff stringify_braces never_throws
            (post_json "Content-Type") _ _).
  reflexivity.
Defined.

(** C5 as stated fails on a key in another spelling: with the header
    [Content-type: application/json] and a structured body, some key
    that is ["content-type"] up to case declares JSON, yet [send] gets
    the body itself and not a JSON text. *)
Lemma content_type_spelling_counterexample :
  let o := post_json "Content-type" in
  spec_serializes o /\
  serializes o = false /\
  setup stringify_braces never_throws o =
    Ret [XOpen "POST" "/api/items" true; XSetWithCredentials false;
         XSetTimeout 30000;
         XSetRequestHeader "Content-type" "application/json";
         XSend (VObj 0)].
Proof.
  repeat split.
  exists "Content-type", "application/json". repeat split.
Qed.

End RequestFacts.

(* ===================================================================== *)
(** ** Facts about XHRPool                                                *)
(* ===================================================================== *)

Module PoolFacts.
Import JS Pool.

(** *** One dispatch attempt *)

Lemma next_from_concurrency (q : list PoolJob) (w : world) :
  concurrency (pool (next_from q w)) = concurrency (pool w).
Proof. functional induction (next_from q w); simpl in *; auto. Qed.

Lemma next_from_next_id (q : list PoolJob) (w : world) :
  next_id (next_from q w) = next_id w.
Proof. functional induction (next_from q w); simpl in *; auto. Qed.

(** The guard of line 111 fails: nothing happens. *)
Lemma next_from_busy (q : list PoolJob) (w : world) :
  concurrency (pool w) <= active (pool w) -> next_from q w = with_queue q w.
Proof.
  intros H. destruct q; simpl; now rewrite (proj2 (Z.leb_le _ _) H).
Qed.

(** Jobs leave the queue at its head and join the admissions at their
    end. *)
Lemma next_from_fifo (q : list PoolJob) (w : world) :
  admitted_ids (next_from q w) ++ queued_ids (next_from q w) =
  admitted_ids w ++ (job_id <$> q).
Proof.
  unfold admitted_ids, queued_ids.
  functional induction (next_from q w); simpl in *; auto.
  - now rewrite fmap_app, <- List.app_assoc.
  - rewrite IHw0. now rewrite fmap_app, <- List.app_assoc.
Qed.

(** Every admission was made below the limit. *)
Lemma next_from_guard (q : list PoolJob) (w : world) :
  Forall (fun a => adm_active a < concurrency (pool w)) (admitted w) ->
  Forall (fun a => adm_active a < concurrency (pool w)) (admitted (next_from q w)).
Proof.
  functional induction (next_from q w); simpl in *; auto.
  - intros H. apply Forall_app. split; [exact H|].
    repeat constructor. simpl. lia.
  - intros H. apply IHw0. apply Forall_app. split; [exact H|].
    repeat constructor. simpl. lia.
Qed.

Lemma next_from_bound (q : list PoolJob) (w : world) :
  active (pool w) <= Z.max 0 (concurrency (pool w)) ->
  active (pool (next_from q w)) <= Z.max 0 (concurrency (pool w)).
Proof.
  functional induction (next_from q w); simpl in *; auto.
  - lia.
  - intros H. apply IHw0. lia.
Qed.

Lemma next_from_active_mono (q : list PoolJob) (w : world) :
  active (pool w) <= active (pool (next_from q w)).
Proof.
  functional induction (next_from q w); simpl in *; try lia.
Qed.

(** With at most one free slot, or at most one job waiting, an attempt
    leaves the queue empty or the pool full. *)
Lemma next_from_saturates (q : list PoolJob) (w : world) :
  concurrency (pool w) <= active (pool w) + 1 \/ (length q <= 1)%nat ->
  queue (pool (next_from q w)) = [] \/
  concurrency (pool w) <= active (pool (next_from q w)).
Proof.
  functional induction (next_from q w); simpl in *.
  - intros _. right. lia.
  - intros _. now left.
  - intros [H|H]; [right; lia|].
    left. destruct rest; [reflexivity | simpl in H; lia].
  - intros H. apply IHw0. destruct H as [H|H]; [left; lia|].
    right. simpl in H. lia.
Qed.

Lemma next_from_count (q : list PoolJob) (w : world) :
  active (pool (next_from q w)) + Z.of_nat (length (queue (pool (next_from q w))))
  <= active (pool w) + Z.of_nat (length q).
Proof.
  functional induction (next_from q w); simpl in *; try lia.
Qed.

Lemma next_from_admitted (q : list PoolJob) (w : world) :
  exists l, admitted (next_from q w) = admitted w ++ l.
Proof.
  functional induction (next_from q w); simpl in *.
  - exists []. now rewrite app_nil_r.
  - exists []. now rewrite app_nil_r.
  - eexists. reflexivity.
  - destruct IHw0 as [l ->]. eexists. now rewrite <- List.app_assoc.
Qed.

Lemma next_from_running_admitted (q : list PoolJob) (w : world) :
  (forall j, is_Some (running w !! j) -> j ∈ admitted_ids w) ->
  forall j, is_Some (running (next_from q w) !! j) -> j ∈ admitted_ids (next_from q w).
Proof.
  unfold admitted_ids.
  functional induction (next_from q w); simpl in *; auto.
  - intros H j. rewrite fmap_app, elem_of_app. simpl.
    destruct (decide (job_id job = j)) as [<-|Hne].
    + intros _. right. apply list_elem_of_here.
    + rewrite lookup_insert_ne by done. intros Hj. left. now apply H.
  - intros H. apply IHw0. intros j Hj.
    rewrite fmap_app, elem_of_app. left. now apply H.
Qed.

Lemma next_from_running_count (q : list PoolJob) (w : world) :
  NoDup (job_id <$> q) ->
  (forall j, j ∈ job_id <$> q -> running w !! j = None) ->
  active (pool w) = Z.of_nat (size (running w)) ->
  active (pool (next_from q w)) = Z.of_nat (size (running (next_from q w))).
Proof.
  functional induction (next_from q w); simpl in *; auto.
  - intros _ Hfresh Ha.
    rewrite map_size_insert_None by (apply Hfresh, list_elem_of_here). lia.
  - intros Hnd Hfresh Ha. apply NoDup_cons in Hnd as [_ Hnd].
    apply IHw0; [assumption| |lia].
    intros j Hj. apply Hfresh. now apply list_elem_of_further.
Qed.

(** The promise of a job is touched only if the job is in the queue
    and its factory throws. *)
Lemma next_from_tokens_frame (q : list PoolJob) (w : world) (k : nat) :
  (forall job, job ∈ q -> throws job -> job_id job <> k) ->
  tokens (next_from q w) !! k = tokens w !! k.
Proof.
  functional induction (next_from q w); simpl in *; auto.
  intros H. rewrite IHw0.
  - apply lookup_alter_ne. apply H; [apply list_elem_of_here | unfold throws; eauto].
  - intros j Hj. apply H. now apply list_elem_of_further.
Qed.

(** A settled promise stays as it is. *)
Lemma next_from_tokens_settled (q : list PoolJob) (w : world) (k : nat)
    (p : promise PoolResult jsval) :
  tokens w !! k = Some p -> settled p = true ->
  tokens (next_from q w) !! k = Some p.
Proof.
  functional induction (next_from q w); simpl in *; auto.
  intros Hk Hp. apply IHw0; [|exact Hp].
  destruct (decide (job_id job = k)) as [<-|Hne].
  - rewrite lookup_alter_eq, Hk. simpl. now destruct p.
  - now rewrite lookup_alter_ne.
Qed.

Lemma next_from_running_frame (q : list PoolJob) (w : world) (k : nat) :
  k ∉ job_id <$> q -> running (next_from q w) !! k = running w !! k.
Proof.
  functional induction (next_from q w); simpl in *; auto.
  - intros H. apply lookup_insert_ne. intros <-. apply H, list_elem_of_here.
  - intros H. apply IHw0. intros Hk. apply H. now apply list_elem_of_further.
Qed.

(** The promises of the jobs that stay in the queue stay pending. *)
Lemma next_from_queued_pending (q : list PoolJob) (w : world) :
  NoDup (job_id <$> q) ->
  (forall j, j ∈ job_id <$> q -> tokens w !! j = Some Pending) ->
  forall j, j ∈ queued_ids (next_from q w) ->
            tokens (next_from q w) !! j = Some Pending.
Proof.
  unfold queued_ids.
  functional induction (next_from q w); simpl in *.
  - auto.
  - intros _ _ j Hj. now apply not_elem_of_nil in Hj.
  - intros _ H j Hj. apply H. now apply list_elem_of_further.
  - intros Hnd H. apply NoDup_cons in Hnd as [Hhead Hnd].
    apply IHw0; [exact Hnd|].
    intros j Hj. rewrite lookup_alter_ne.
    + apply H. now apply list_elem_of_further.
    + intros Heq. apply Hhead. now rewrite Heq.
Qed.

(** *** Invariants of the runs *)

Lemma wf_queue_fresh (w : world) :
  wf w ->
  NoDup (queued_ids w) /\ forall j, j ∈ queued_ids w -> running w !! j = None.
Proof.
  intros Hw. pose proof (NoDup_seq 0 (next_id w)) as Hnd.
  rewrite <- (wf_fifo w Hw) in Hnd.
  apply NoDup_app in Hnd as (_ & Hdisj & Hq). split; [exact Hq|].
  intros j Hj. destruct (running w !! j) eqn:E; [|reflexivity].
  exfalso. apply (Hdisj j); [|exact Hj].
  apply (wf_running w Hw). now rewrite E.
Qed.

Lemma next_wf (w : world) : wf w -> wf (_next w).
Proof.
  intros Hw. destruct (wf_queue_fresh w Hw) as [Hnd Hfresh].
  unfold _next. split.
  - rewrite next_from_fifo, next_from_next_id. apply (wf_fifo w Hw).
  - rewrite next_from_concurrency. apply next_from_guard, (wf_guard w Hw).
  - rewrite next_from_concurrency. apply next_from_bound, (wf_bound w Hw).
  - rewrite next_from_next_id.
    pose proof (next_from_count (queue (pool w)) w).
    pose proof (wf_count w Hw). lia.
  - apply next_from_running_admitted, (wf_running w Hw).
  - apply next_from_running_count; [exact Hnd | exact Hfresh | apply (wf_active w Hw)].
  - apply next_from_queued_pending; [exact Hnd | apply (wf_pending w Hw)].
Qed.

Lemma next_saturated (w : world) :
  concurrency (pool w) <= active (pool w) + 1 \/ (length (queue (pool w)) <= 1)%nat ->
  saturated (_next w).
Proof.
  intros H. unfold saturated, _next. rewrite next_from_concurrency.
  now apply next_from_saturates.
Qed.

Lemma new_world_wf (c : option Z) : wf (new_world c) /\ saturated (new_world c).
Proof.
  split; [split; simpl; try reflexivity; try lia|now left].
  - constructor.
  - intros j [x Hx]. now rewrite lookup_empty in Hx.
  - intros j Hj. now apply not_elem_of_nil in Hj.
Qed.

(** The world in which [enqueue] calls [_next]. *)
Lemma enqueue_wf (f : factory_outcome) (w : world) :
  wf w -> wf (enqueue f w).
Proof.
  intros Hw. unfold enqueue. apply next_wf. split; [|simpl..].
  - pose proof (wf_fifo w Hw) as Hf.
    unfold admitted_ids, queued_ids in *. cbn [pool queue admitted next_id].
    rewrite fmap_app, List.app_assoc, Hf, seq_S. reflexivity.
  - apply (wf_guard w Hw).
  - apply (wf_bound w Hw).
  - rewrite length_app. simpl. pose proof (wf_count w Hw). lia.
  - apply (wf_running w Hw).
  - apply (wf_active w Hw).
  - intros j. unfold queued_ids. simpl. rewrite fmap_app, elem_of_app.
    intros [Hj | Hj].
    + assert (j ∈ seq 0 (next_id w)) as Hlt.
      { rewrite <- (wf_fifo w Hw). apply elem_of_app. now right. }
      apply elem_of_seq in Hlt.
      rewrite lookup_insert_ne by lia. now apply (wf_pending w Hw).
    + apply list_elem_of_singleton in Hj as ->. apply lookup_insert_eq.
Qed.

Lemma settle_wf (j : nat) (x : jsval) (w : world)
    (f : promise PoolResult jsval -> promise PoolResult jsval) :
  wf w -> running w !! j = Some x ->
  wf (_next {| pool := {| concurrency := concurrency (pool w);
                          active := active (pool w) - 1;
                          queue := queue (pool w) |};
               tokens := alter f j (tokens w);
               running := delete j (running w);
               admitted := admitted w; next_id := next_id w |}).
Proof.
  intros Hw Hj. apply next_wf. split; simpl.
  - apply (wf_fifo w Hw).
  - apply (wf_guard w Hw).
  - pose proof (wf_bound w Hw). lia.
  - pose proof (wf_count w Hw). lia.
  - intros k Hk. apply (wf_running w Hw).
    destruct (decide (j = k)) as [->|Hne].
    + now rewrite lookup_delete_eq in Hk; destruct Hk.
    + now rewrite lookup_delete_ne in Hk.
  - rewrite (wf_active w Hw).
    assert (size (running w) = S (size (delete j (running w)))) as ->; [|lia].
    rewrite <- (insert_delete_id (running w) j x Hj) at 1.
    apply map_size_insert_None, lookup_delete_eq.
  - intros k Hk. destruct (wf_queue_fresh w Hw) as [_ Hfresh].
    rewrite lookup_alter_ne; [now apply (wf_pending w Hw)|].
    intros ->. specialize (Hfresh k Hk). congruence.
Qed.

Lemma step_wf (w : world) (ev : event) : wf w -> wf (step w ev).
Proof.
  intros Hw. destruct ev as [f|j r|j err]; simpl.
  - now apply enqueue_wf.
  - unfold on_fulfilled. destruct (running w !! j) eqn:E; [|exact Hw].
    eapply settle_wf; eauto.
  - unfold on_rejected. destruct (running w !! j) eqn:E; [|exact Hw].
    eapply settle_wf; eauto.
Qed.

Lemma step_saturated (w : world) (ev : event) :
  saturated w -> saturated (step w ev).
Proof.
  intros Hs. destruct ev as [f|j r|j err]; simpl.
  - unfold enqueue. apply next_saturated. simpl.
    destruct Hs as [-> | Hs]; [right; simpl; lia | left; lia].
  - unfold on_fulfilled. destruct (running w !! j); [|exact Hs].
    apply next_saturated. simpl.
    destruct Hs as [-> | Hs]; [right; simpl; lia | left; lia].
  - unfold on_rejected. destruct (running w !! j); [|exact Hs].
    apply next_saturated. simpl.
    destruct Hs as [-> | Hs]; [right; simpl; lia | left; lia].
Qed.

Lemma step_concurrency (w : world) (ev : event) :
  concurrency (pool (step w ev)) = concurrency (pool w).
Proof.
  destruct ev as [f|j r|j err]; simpl.
  - unfold enqueue, _next. now rewrite next_from_concurrency.
  - unfold on_fulfilled, _next. destruct (running w !! j); [|reflexivity].
    now rewrite next_from_concurrency.
  - unfold on_rejected, _next. destruct (running w !! j); [|reflexivity].
    now rewrite next_from_concurrency.
Qed.

Lemma run_snoc (c : option Z) (evs : list event) (ev : event) :
  run_pool c (evs ++ [ev]) = step (run_pool c evs) ev.
Proof. unfold run_pool. now rewrite foldl_app. Qed.

Lemma run_invariant (c : option Z) (evs : list event) :
  wf (run_pool c evs) /\ saturated (run_pool c evs) /\
  concurrency (pool (run_pool c evs)) = default 4 c.
Proof.
  induction evs as [|ev evs IH] using rev_ind.
  - destruct (new_world_wf c) as [Hw Hs].
    split; [exact Hw | split; [exact Hs | reflexivity]].
  - rewrite run_snoc. destruct IH as (Hw & Hs & Hc).
    split; [|split].
    + now apply step_wf.
    + now apply step_saturated.
    + now rewrite step_concurrency.
Qed.

(** In every run the promise of a waiting job is pending. *)
Lemma run_queued_pending (c : option Z) (evs : list event) (j : nat) :
  j ∈ queued_ids (run_pool c evs) -> tokens (run_pool c evs) !! j = Some Pending.
Proof. destruct (run_invariant c evs) as (Hw & _). apply (wf_pending _ Hw). Qed.

(** *** The claims about the pool *)

(** C1. In a pool of positive limit [n], after any sequence of
    submissions, completions and failures: [active] is the number of
    running tasks and lies between 0 and [n]; every job taken from the
    queue was taken at an attempt that saw [active < n]; and [active]
    is the smaller of [n] and [active] plus the length of the queue. *)
Theorem active_never_exceeds_limit (n : Z) (evs : list event) :
  0 < n ->
  let w := run_pool (Some n) evs in
  0 <= active (pool w) <= n /\
  active (pool w) = Z.of_nat (size (running w)) /\
  Forall (fun a => adm_active a < n) (admitted w) /\
  active (pool w) = Z.min n (active (pool w) + Z.of_nat (length (queue (pool w)))).
Proof.
  intros Hn w. destruct (run_invariant (Some n) evs) as (Hw & Hs & Hc).
  fold w in Hw, Hs, Hc. simpl in Hc.
  pose proof (wf_bound w Hw) as Hb. pose proof (wf_active w Hw) as Ha.
  pose proof (wf_guard w Hw) as Hg. rewrite Hc in Hb, Hg.
  repeat split; try lia; try assumption.
  destruct Hs as [-> | Hs]; simpl; lia.
Qed.

Lemma next_from_head_admitted (job : PoolJob) (rest : list PoolJob) (w : world) :
  active (pool w) < concurrency (pool w) ->
  job_id job ∈ admitted_ids (next_from (job :: rest) w).
Proof.
  intros H. unfold admitted_ids. rewrite next_from_equation.
  rewrite (proj2 (Z.leb_gt _ _) H).
  destruct (createTaskFn job) as [e|x].
  - match goal with |- context [next_from rest ?w'] =>
      destruct (next_from_admitted rest w') as [l ->] end.
    simpl. rewrite !fmap_app, !elem_of_app. left. right. apply list_elem_of_here.
  - simpl. rewrite fmap_app, elem_of_app. right. apply list_elem_of_here.
Qed.

Lemma wf_queued_not_admitted (w : world) (j : nat) :
  wf w -> j ∈ queued_ids w -> j ∉ admitted_ids w.
Proof.
  intros Hw Hq Ha. pose proof (NoDup_seq 0 (next_id w)) as Hnd.
  rewrite <- (wf_fifo w Hw) in Hnd.
  apply NoDup_app in Hnd as (_ & Hdisj & _). now apply (Hdisj j).
Qed.

(** C2. After any sequence of events, the jobs admitted so far, in the
    order their factories were invoked, followed by the jobs waiting,
    in queue order, are the submissions in submission order. A
    submission that is among the first [concurrency] ones is admitted
    within its own [enqueue]; a submission made while [active] has
    reached the limit is not admitted within its [enqueue] and waits;
    and a waiting job is admitted only in the handling of the
    completion or the failure of a running task. *)
Theorem admission_is_fifo (c : option Z) (evs : list event)
    (f : factory_outcome) (ev : event) :
  let w := run_pool c evs in
  admitted_ids w ++ queued_ids w = seq 0 (next_id w) /\
  (Z.of_nat (next_id w) < concurrency (pool w) ->
     next_id w ∈ admitted_ids (step w (Enqueue f))) /\
  (concurrency (pool w) <= active (pool w) ->
     admitted (step w (Enqueue f)) = admitted w /\
     next_id w ∈ queued_ids (step w (Enqueue f))) /\
  (forall j, j ∈ queued_ids w -> j ∈ admitted_ids (step w ev) -> is_settle ev w).
Proof.
  intros w. destruct (run_invariant c evs) as (Hw & Hs & _).
  fold w in Hw, Hs. repeat split.
  - apply (wf_fifo w Hw).
  - intros Hlt. simpl. unfold enqueue, _next. cbn [pool queue].
    pose proof (wf_count w Hw) as Hcount.
    destruct Hs as [Hq | Hs]; [|lia]. rewrite Hq. cbn [app].
    apply (next_from_head_admitted {| job_id := next_id w; createTaskFn := f |}).
    simpl. rewrite Hq in Hcount. simpl in Hcount. lia.
  - simpl. unfold enqueue, _next. now rewrite next_from_busy.
  - simpl. unfold enqueue, _next. rewrite next_from_busy by assumption.
    unfold queued_ids. simpl. rewrite fmap_app, elem_of_app. right.
    apply list_elem_of_here.
  - intros j Hq Ha. pose proof (wf_queued_not_admitted w j Hw Hq) as Hna.
    destruct ev as [g|k r|k err]; simpl in *.
    + exfalso. destruct Hs as [Hs | Hs].
      * unfold queued_ids in Hq. rewrite Hs in Hq. simpl in Hq.
        now apply not_elem_of_nil in Hq.
      * unfold enqueue, _next in Ha. rewrite next_from_busy in Ha by assumption.
        now apply Hna.
    + unfold on_fulfilled in Ha. destruct (running w !! k); [eauto|].
      exfalso. now apply Hna.
    + unfold on_rejected in Ha. destruct (running w !! k); [eauto|].
      exfalso. now apply Hna.
Qed.

Lemma alter_reject_pending (e : jsval) (j : nat)
    (tk : gmap nat (promise PoolResult jsval)) :
  tk !! j = Some Pending ->
  alter (reject e) j tk = <[j := Rejected e]> tk.
Proof.
  intros H. apply map_eq. intros k.
  destruct (decide (j = k)) as [<-|Hne].
  - now rewrite lookup_alter_eq, lookup_insert_eq, H.
  - now rewrite lookup_alter_ne, lookup_insert_ne.
Qed.

(** C9. At a dispatch attempt with a free slot whose head job has a
    factory that throws [e]: the attempt goes on exactly as the attempt
    on the rest of the queue with [active] back at its value, the
    promise of that job rejected with [e] and nothing else changed; at
    the end that promise is rejected with [e], the promise of any job
    that is not a queued job with a throwing factory is as before, the
    running tasks are as before apart from jobs just admitted,
    [active] has not gone down, and the next job in the queue has been
    admitted. *)
Theorem factory_throw_contained (w : world) (job : PoolJob)
    (rest : list PoolJob) (e : jsval) :
  queue (pool w) = job :: rest ->
  createTaskFn job = FThrows e ->
  active (pool w) < concurrency (pool w) ->
  tokens w !! job_id job = Some Pending ->
  let w' := {| pool := {| concurrency := concurrency (pool w);
                          active := active (pool w);
                          queue := rest |};
               tokens := <[job_id job := Rejected e]> (tokens w);
               running := running w;
               admitted := admitted w ++
                 [{| adm_job := job_id job; adm_active := active (pool w) |}];
               next_id := next_id w |} in
  _next w = _next w' /\
  tokens (_next w) !! job_id job = Some (Rejected e) /\
  (forall k, (forall j, j ∈ queue (pool w) -> throws j -> job_id j <> k) ->
             tokens (_next w) !! k = tokens w !! k) /\
  (forall k, k ∉ queued_ids w -> running (_next w) !! k = running w !! k) /\
  active (pool w) <= active (pool (_next w)) /\
  match rest with
  | [] => True
  | following :: _ => job_id following ∈ admitted_ids (_next w)
  end.
Proof.
  intros Hq Hf Hlt Htk w'.
  assert (_next w = _next w') as Heq.
  { unfold _next. rewrite Hq. rewrite next_from_equation.
    rewrite (proj2 (Z.leb_gt _ _) Hlt), Hf. subst w'. cbn [pool queue].
    rewrite alter_reject_pending by assumption.
    now rewrite Z.add_simpl_r. }
  repeat split.
  - exact Heq.
  - rewrite Heq. unfold _next. apply next_from_tokens_settled; [|reflexivity].
    subst w'. simpl. apply lookup_insert_eq.
  - intros k Hk. unfold _next. now apply next_from_tokens_frame.
  - intros k Hk. unfold _next. now apply next_from_running_frame.
  - apply next_from_active_mono.
  - destruct rest as [|following rest']; [exact I|].
    rewrite Heq. unfold _next. subst w'. cbn [pool queue].
    apply next_from_head_admitted. simpl. exact Hlt.
Qed.

Lemma step_idle (w : world) (ev : event) :
  concurrency (pool w) <= 0 -> idle w -> idle (step w ev).
Proof.
  intros Hc Hi. destruct ev as [f|j r|j err]; simpl.
  - unfold enqueue, _next.
    rewrite next_from_busy by (simpl; rewrite (idle_active w Hi); lia).
    split.
    + apply (idle_active w Hi).
    + apply (idle_running w Hi).
    + apply (idle_admitted w Hi).
    + pose proof (idle_queue w Hi) as Hq. unfold queued_ids in *.
      cbn [with_queue pool queue next_id].
      rewrite fmap_app, Hq, seq_S. reflexivity.
    + simpl. intros j.
      destruct (decide (next_id w = j)) as [<-|Hne].
      * rewrite lookup_insert_eq. now rewrite decide_True by lia.
      * rewrite lookup_insert_ne by done. rewrite (idle_tokens w Hi j).
        destruct (decide (j < next_id w)%nat), (decide (j < S (next_id w))%nat);
          try reflexivity; lia.
  - unfold on_fulfilled. rewrite (idle_running w Hi), lookup_empty. exact Hi.
  - unfold on_rejected. rewrite (idle_running w Hi), lookup_empty. exact Hi.
Qed.

Lemma run_idle (c : Z) (evs : list event) :
  c <= 0 -> idle (run_pool (Some c) evs).
Proof.
  intros Hc. induction evs as [|ev evs IH] using rev_ind.
  - split; try reflexivity.
  - rewrite run_snoc. apply step_idle; [|exact IH].
    destruct (run_invariant (Some c) evs) as (_ & _ & ->). exact Hc.
Qed.

(** C10. A pool whose limit [c] is zero or negative keeps [c] as it was
    given; after any sequence of events [active] is 0, no factory has
    been invoked, no task runs, every submission is still in the queue
    in submission order and the promise of every submission is
    pending. *)
Theorem nonpositive_limit_never_dispatches (c : Z) (evs : list event) :
  c <= 0 ->
  let w := run_pool (Some c) evs in
  concurrency (pool w) = c /\
  active (pool w) = 0 /\
  admitted w = [] /\
  running w = ∅ /\
  queued_ids w = seq 0 (next_id w) /\
  (forall j, (j < next_id w)%nat -> tokens w !! j = Some Pending).
Proof.
  intros Hc w. pose proof (run_idle c evs Hc) as Hi. fold w in Hi.
  destruct (run_invariant (Some c) evs) as (_ & _ & Hcc). fold w in Hcc.
  repeat split.
  - exact Hcc.
  - apply (idle_active w Hi).
  - apply (idle_admitted w Hi).
  - apply (idle_running w Hi).
  - apply (idle_queue w Hi).
  - intros j Hj. rewrite (idle_tokens w Hi j). now rewrite decide_True.
Qed.

Lemma active_never_exceeds_limit_witness :
  let w := run_pool (Some 2) sample_events in
  0 <= active (pool w) <= 2 /\
  active (pool w) = Z.of_nat (size (running w)) /\
  Forall (fun a => adm_active a < 2) (admitted w) /\
  active (pool w) = Z.min 2 (active (pool w) + Z.of_nat (length (queue (pool w)))).
Proof. apply (active_never_exceeds_limit 2 sample_events). lia. Defined.

(** The scenario of four submissions to a pool of limit 2: the first
    two are admitted at once, the third when the first task finishes,
    the fourth at the next finish. *)
Lemma admission_scenario :
  let four := [Enqueue (FReturns VNull); Enqueue (FReturns VNull);
               Enqueue (FReturns VNull); Enqueue (FReturns VNull)] in
  admitted_ids (run_pool (Some 2) four) = [0; 1]%nat /\
  queued_ids (run_pool (Some 2) four) = [2; 3]%nat /\
  admitted_ids (run_pool (Some 2) (four ++ [TaskFulfilled 0 VNull])) = [0; 1; 2]%nat /\
  admitted_ids (run_pool (Some 2) (four ++ [TaskFulfilled 0 VNull; TaskRejected 1 VNull]))
    = [0; 1; 2; 3]%nat.
Proof. repeat split. Qed.

Lemma factory_throw_contained_witness :
  tokens (_next after_first_done) !! 1%nat = Some (Rejected (VStr "boom")) /\
  (2%nat ∈ admitted_ids (_next after_first_done)).
Proof.
  pose proof (factory_throw_contained after_first_done
                {| job_id := 1%nat; createTaskFn := FThrows (VStr "boom") |}
                [{| job_id := 2%nat; createTaskFn := FReturns VNull |}]
                (VStr "boom") eq_refl eq_refl eq_refl eq_refl) as H.
  split; [apply H | apply H].
Defined.

Lemma nonpositive_limit_never_dispatches_witness :
  let w := run_pool (Some 0) sample_events in
  concurrency (pool w) = 0 /\
  active (pool w) = 0 /\
  admitted w = [] /\
  running w = ∅ /\
  queued_ids w = seq 0 (next_id w) /\
  (forall j, (j < next_id w)%nat -> tokens w !! j = Some Pending).
Proof. apply (nonpositive_limit_never_dispatches 0 sample_events). lia. Defined.

End PoolFacts.

(* ===================================================================== *)
(** ** More about parseHeaders                                            *)
(* ===================================================================== *)

Module HeadersMore.
Import JSString Headers JSStringFacts HeadersFacts.

Lemma parse_line_name_value_eq (h : gmap string string) (line : string) :
  parse_line h line = obj_set (toLowerCase (line_name line)) (line_value line) h.
Proof. reflexivity. Qed.

Lemma lookup_obj_set (k v k' : string) (h : gmap string string) :
  k' <> "__proto__" ->
  obj_set k v h !! k' = if decide (k = k') then Some v else h !! k'.
Proof.
  intros Hk. unfold obj_set. case_decide as Hp.
  - case_decide; [congruence | reflexivity].
  - case_decide as E; [subst; apply lookup_insert_eq | now apply lookup_insert_ne].
Qed.

Lemma foldl_parse_line_lookup (ls : list string) (k : string) :
  k <> "__proto__" ->
  foldl parse_line ∅ ls !! k =
  line_value <$> last (filter (fun l => toLowerCase (line_name l) = k) ls).
Proof.
  intros Hk. induction ls as [|l ls IH] using rev_ind; [reflexivity|].
  rewrite foldl_app. cbn [foldl]. rewrite parse_line_name_value_eq.
  rewrite lookup_obj_set by assumption. rewrite filter_app.
  case_decide as E.
  - rewrite filter_cons_True by assumption. rewrite filter_nil.
    now rewrite last_snoc.
  - rewrite filter_cons_False by assumption. rewrite filter_nil, app_nil_r.
    exact IH.
Qed.

(** X1. When a header name occurs on several lines, also in different
    case, the value of the last of these lines is the one kept; a name
    on no line has no entry. *)
Theorem repeated_header_last_wins (cls : ascii -> bool) (s k : string) :
  s <> "" -> k <> "__proto__" ->
  parseHeaders cls (Some s) !! k =
  line_value <$> last (filter (fun l => toLowerCase (line_name l) = k) (lines_of cls s)).
Proof.
  intros Hs Hk. unfold parseHeaders. rewrite decide_False by assumption.
  now apply foldl_parse_line_lookup.
Qed.

Lemma repeated_header_last_wins_witness :
  parseHeaders newline_class (Some ("Set-Cookie: a=1" +:+ String LF "set-cookie: b=2"))
    !! "set-cookie" = Some "b=2".
Proof.
  rewrite (repeated_header_last_wins newline_class _ "set-cookie");
    [reflexivity|discriminate..].
Defined.

Lemma includes_false_find_first (sep s : string) :
  includes s sep = false -> find_first sep s = None.
Proof.
  induction s as [|c s IH]; cbn [includes find_first]; intros H;
    apply orb_false_iff in H as [H1 H2]; rewrite H1; [reflexivity|].
  now rewrite IH.
Qed.

(** X2. A line is cut at its first [": "] only: when the name holds no
    [": "], the line [name: value] gives the entry from the lower-cased
    name to the whole of [value], whatever [value] contains, and the
    bare line [name] gives the entry from the lower-cased name to the
    empty string. *)
Theorem line_cut_at_first_separator (h : gmap string string) (name value : string) :
  includes name ": " = false ->
  parse_line h (name +:+ ": " +:+ value) = obj_set (toLowerCase name) value h /\
  parse_line h name = obj_set (toLowerCase name) "" h.
Proof.
  intros H. apply includes_false_find_first in H. split.
  - now apply parse_line_name_value.
  - rewrite parse_line_first. now rewrite H.
Qed.

Lemma line_cut_at_first_separator_witness :
  parse_line ∅ ("X-Id" +:+ ": " +:+ "a: b: c") = obj_set (toLowerCase "X-Id") "a: b: c" ∅ /\
  parse_line ∅ "X-Id" = obj_set (toLowerCase "X-Id") "" ∅.
Proof. apply (line_cut_at_first_separator ∅ "X-Id" "a: b: c"). reflexivity. Defined.

Lemma foldl_parse_line_no_proto (ls : list string) (h : gmap string string) :
  h !! "__proto__" = None -> foldl parse_line h ls !! "__proto__" = None.
Proof.
  revert h; induction ls as [|l ls IH]; intros h Hh; [exact Hh|].
  cbn [foldl]. apply IH. unfold parse_line, obj_set.
  case_decide as E; [exact Hh|]. now rewrite lookup_insert_ne.
Qed.

(** X3. No header block gives an entry named [__proto__]: a line with
    that name, in any case, is dropped. *)
Theorem no_proto_entry (cls : ascii -> bool) (hs : option string) :
  parseHeaders cls hs !! "__proto__" = None.
Proof.
  destruct hs as [s|]; [|reflexivity]. unfold parseHeaders.
  case_decide; [reflexivity|]. now apply foldl_parse_line_no_proto.
Qed.

Lemma trimStart_all_ws (s : string) :
  all_chars is_white_space s = true -> trimStart s = "".
Proof.
  induction s as [|c s IH]; [reflexivity|]. cbn [all_chars trimStart].
  intros H. apply andb_true_iff in H as [Hc Hs]. rewrite Hc. now apply IH.
Qed.

(** X4. A block that is not empty but holds white space only (blanks,
    tabs, CR, LF) does not give the empty mapping: it gives the single
    entry from the empty name to the empty value. *)
Theorem blank_block_gives_empty_name (cls : ascii -> bool) (s : string) :
  s <> "" -> all_chars is_white_space s = true ->
  parseHeaders cls (Some s) = {[ "" := "" ]}.
Proof.
  intros Hs Hws. unfold parseHeaders, parse_lines, trim.
  rewrite decide_False by assumption. now rewrite trimStart_all_ws.
Qed.

Lemma blank_block_gives_empty_name_witness :
  parseHeaders newline_class (Some CRLF) = {[ "" := "" ]}.
Proof. apply blank_block_gives_empty_name; [discriminate | reflexivity]. Defined.

Lemma trimEnd_all_ws (s : string) :
  all_chars is_white_space s = true -> trimEnd s = "".
Proof.
  induction s as [|c s IH]; [reflexivity|]. cbn [all_chars trimEnd].
  intros H. apply andb_true_iff in H as [Hc Hs]. now rewrite IH, Hc.
Qed.

Lemma trimEnd_app_ws (s tail : string) :
  all_chars is_white_space tail = true -> trimEnd (s +:+ tail) = trimEnd s.
Proof.
  intros H. induction s as [|c s IH].
  - rewrite app_nil. now apply trimEnd_all_ws.
  - rewrite app_cons. cbn [trimEnd]. now rewrite IH.
Qed.

Lemma trimEnd_clean (s : string) : ends_clean s = true -> trimEnd s = s.
Proof.
  induction s as [|c s IH]; [discriminate|].
  destruct s as [|d s'].
  - cbn [ends_clean trimEnd]. intros H. apply negb_true_iff in H. now rewrite H.
  - intros H. change (ends_clean (String d s') = true) in H.
    change (trimEnd (String c (String d s')))
      with (match trimEnd (String d s') with
            | EmptyString =>
                if is_white_space c then EmptyString else String c EmptyString
            | t => String c t
            end).
    now rewrite IH.
Qed.

Lemma trimStart_clean (s : string) : starts_clean s = true -> trimStart s = s.
Proof.
  destruct s as [|c s]; [discriminate|]. cbn [starts_clean trimStart].
  now destruct (is_white_space c).
Qed.

Lemma ends_clean_app (x y : string) :
  y <> "" -> ends_clean (x +:+ y) = ends_clean y.
Proof.
  intros Hy. induction x as [|c x IH]; [reflexivity|].
  rewrite app_cons. rewrite <- IH.
  destruct (x +:+ y) eqn:E; [|reflexivity].
  destruct x; [rewrite app_nil in E; contradiction | discriminate E].
Qed.

Lemma tidy_line_parts (cls : ascii -> bool) (l : string) :
  tidy_line cls l = true ->
  starts_clean l = true /\ ends_clean l = true /\ has_char cls l = false.
Proof.
  unfold tidy_line. rewrite !andb_true_iff, negb_true_iff. tauto.
Qed.

Lemma has_char_no_char_of (cls : ascii -> bool) (s : string) :
  has_char cls s = false -> no_char_of cls s.
Proof.
  induction s as [|c s IH]; intros H x Hx; [destruct Hx|].
  cbn [has_char] in H. apply orb_false_iff in H as [Hc Hs].
  destruct Hx as [<-|Hx]; [exact Hc | now apply IH].
Qed.

Lemma split_class_no_sep (cls : ascii -> bool) (s : string) :
  has_char cls s = false -> split_class cls s = [s].
Proof.
  induction s as [|c s IH]; [reflexivity|]. cbn [has_char split_class].
  intros H. apply orb_false_iff in H as [Hc Hs]. now rewrite Hc, IH.
Qed.

Lemma split_class_skip (cls : ascii -> bool) (c c' : ascii) (s : string) :
  cls c = true -> cls c' = true ->
  split_class cls (String c (String c' s)) = split_class cls (String c' s).
Proof.
  intros Hc Hc'.
  change (split_class cls (String c (String c' s)))
    with (if cls c
          then (if cls c' then split_class cls (String c' s)
                else "" :: split_class cls (String c' s))
          else cons_head c (split_class cls (String c' s))).
  now rewrite Hc, Hc'.
Qed.

(** A run of characters of the class in front of a piece. *)
Lemma split_class_run (cls : ascii -> bool) (sep b : string) :
  sep <> "" -> all_chars cls sep = true -> starts_outside cls b ->
  split_class cls (sep +:+ b) = "" :: split_class cls b.
Proof.
  intros Hne Hsep Hb. induction sep as [|c sep IH]; [contradiction|].
  cbn [all_chars] in Hsep. apply andb_true_iff in Hsep as [Hc Hsep].
  rewrite app_cons. destruct sep as [|c' sep'].
  - rewrite app_nil. cbn [split_class]. rewrite Hc.
    destruct b as [|d b']; [reflexivity|]. simpl in Hb. now rewrite Hb.
  - pose proof Hsep as Hall. cbn [all_chars] in Hsep.
    apply andb_true_iff in Hsep as [Hc' Hsep'].
    rewrite app_cons, split_class_skip by assumption.
    rewrite <- app_cons. apply IH; [discriminate | exact Hall].
Qed.

Lemma split_class_piece (cls : ascii -> bool) (a sep b : string) :
  has_char cls a = false -> sep <> "" -> all_chars cls sep = true ->
  starts_outside cls b ->
  split_class cls (a +:+ sep +:+ b) = a :: split_class cls b.
Proof.
  intros Ha Hne Hsep Hb. induction a as [|x a IH].
  - rewrite app_nil. now apply split_class_run.
  - cbn [has_char] in Ha. apply orb_false_iff in Ha as [Hx Ha].
    rewrite app_cons. cbn [split_class]. rewrite Hx. now rewrite IH.
Qed.

Lemma join_two (sep x y : string) (rest : list string) :
  join sep (x :: y :: rest) = x +:+ sep +:+ join sep (y :: rest).
Proof. reflexivity. Qed.

Lemma join_starts (sep : string) (c : ascii) (t : string) (ls : list string) :
  exists t', join sep (String c t :: ls) = String c t'.
Proof.
  destruct ls; [now exists t | eexists; rewrite join_two, app_cons; reflexivity].
Qed.

Lemma split_class_join_tidy (cls : ascii -> bool) (sep : string) (ls : list string) :
  sep <> "" -> all_chars cls sep = true ->
  ls <> [] -> Forall (fun l => tidy_line cls l = true) ls ->
  split_class cls (join sep ls) = ls.
Proof.
  intros Hne Hsep. induction ls as [|l ls IH]; [contradiction|]. intros _ Hall.
  inversion Hall as [|? ? Hl Hls]; subst.
  destruct (tidy_line_parts cls l Hl) as (_ & _ & Hno).
  destruct ls as [|l' ls'].
  - now apply split_class_no_sep.
  - rewrite join_two. rewrite split_class_piece; try assumption.
    + now rewrite IH.
    + inversion Hls as [|? ? Hl' _]; subst.
      destruct (tidy_line_parts cls l' Hl') as (Hs' & _ & Hno').
      destruct l' as [|d t]; [discriminate Hs'|].
      destruct (join_starts sep d t ls') as [t' ->].
      cbn [has_char] in Hno'. apply orb_false_iff in Hno' as [Hd _]. exact Hd.
Qed.

Lemma join_tidy_clean (cls : ascii -> bool) (sep : string) (ls : list string) :
  ls <> [] -> Forall (fun l => tidy_line cls l = true) ls ->
  starts_clean (join sep ls) = true /\ ends_clean (join sep ls) = true.
Proof.
  induction ls as [|l ls IH]; [contradiction|]. intros _ Hall.
  inversion Hall as [|? ? Hl Hls]; subst.
  destruct (tidy_line_parts cls l Hl) as (Hs & He & _).
  destruct ls as [|l' ls']; [now split|].
  destruct IH as [IHs IHe]; [discriminate | assumption |].
  rewrite join_two. split.
  - destruct l; [discriminate|]. now rewrite app_cons.
  - assert (join sep (l' :: ls') <> "") as Hj
      by (destruct (join sep (l' :: ls')); [discriminate IHs | discriminate]).
    rewrite ends_clean_app.
    + now rewrite ends_clean_app.
    + destruct sep; [now rewrite app_nil | rewrite app_cons; discriminate].
Qed.

(** Lines that hold none of the characters of the class and have no
    white space around them, joined by runs of characters of the
    class and followed by white space, are parsed one by one in order. *)
Lemma block_of_tidy_lines (cls : ascii -> bool) (sep : string) (ls : list string)
    (tail : string) :
  sep <> "" -> all_chars cls sep = true ->
  ls <> [] -> Forall (fun l => tidy_line cls l = true) ls ->
  all_chars is_white_space tail = true ->
  parseHeaders cls (Some (join sep ls +:+ tail)) = foldl parse_line ∅ ls.
Proof.
  intros Hsne Hsep Hne Hall Htail.
  destruct (join_tidy_clean cls sep ls Hne Hall) as [Hs He].
  unfold parseHeaders. rewrite decide_False.
  - unfold parse_lines, trim.
    rewrite trimStart_clean.
    + rewrite trimEnd_app_ws, trimEnd_clean by assumption.
      now rewrite split_class_join_tidy.
    + destruct (join sep ls); [discriminate Hs|]. now rewrite app_cons.
  - destruct (join sep ls); [discriminate Hs|]. rewrite app_cons. discriminate.
Qed.

(** X5. Whatever characters the class of the pattern holds: a block of
    lines that have no white space around them and none of these
    characters inside, joined by runs of these characters and followed
    by any white space, is parsed line by line in order; the result is
    the lines folded into the empty mapping. *)
Theorem tidy_block_parses_line_by_line (cls : ascii -> bool) (sep : string)
    (ls : list string) (tail : string) :
  sep <> "" -> all_chars cls sep = true ->
  ls <> [] ->
  Forall (fun l => tidy_line cls l = true) ls ->
  all_chars is_white_space tail = true ->
  parseHeaders cls (Some (join sep ls +:+ tail)) = foldl parse_line ∅ ls.
Proof. apply block_of_tidy_lines. Qed.

Lemma tidy_block_parses_line_by_line_witness :
  parseHeaders newline_class
    (Some (join CRLF ["Content-Type: application/json"; "X-Id: a: b"] +:+ CRLF)) =
  foldl parse_line ∅ ["Content-Type: application/json"; "X-Id: a: b"].
Proof.
  apply tidy_block_parses_line_by_line;
    [discriminate | reflexivity | discriminate | repeat constructor | reflexivity].
Defined.


End HeadersMore.

(* ===================================================================== *)
(** ** More about xhrRequest                                              *)
(* ===================================================================== *)

Module RequestMore.
Import JSString Headers JS Request JSStringFacts HeadersFacts RequestFacts.

Section Setup.

Variable line_class : ascii -> bool.
Variable JSON_parse : string -> res jsval.
Variable JSON_stringify : jsval -> res jsval.
Variable xhr_throws : list xhr_call -> xhr_call -> option jsval.
Variable xhr : nat.

Local Abbreviation parseHeaders := (Headers.parseHeaders line_class).
Local Abbreviation fire := (Request.fire line_class JSON_parse xhr).
Local Abbreviation run := (Request.run line_class JSON_parse xhr).
Local Abbreviation success_envelope :=
  (Request.success_envelope line_class JSON_parse xhr).
Local Abbreviation setup := (Request.setup JSON_stringify xhr_throws).
Local Abbreviation xhrRequest := (Request.xhrRequest JSON_stringify xhr_throws).

Lemma call_ret (c : xhr_call) (made made' : list xhr_call) :
  call xhr_throws c made = Ret made' -> made' = made ++ [c].
Proof.
  unfold call. destruct (xhr_throws made c); [discriminate|]. now intros [= <-].
Qed.

Lemma set_headers_ret (kvs : list (string * string)) (made made' : list xhr_call) :
  set_headers xhr_throws kvs made = Ret made' ->
  made' = made ++ (header_call <$> kvs).
Proof.
  revert made; induction kvs as [|[k v] kvs IH]; intros made; cbn [set_headers].
  - intros [= <-]. now rewrite app_nil_r.
  - unfold res_bind. destruct (call xhr_throws (XSetRequestHeader k v) made) eqn:E;
      [|discriminate].
    intros H. apply IH in H. apply call_ret in E. subst.
    now rewrite <- List.app_assoc.
Qed.

(** The transport calls of a setup block that runs to its end. *)
Lemma setup_shape (o : RequestOptions) (made : list xhr_call) :
  setup o = Ret made ->
  exists p,
    payload JSON_stringify o = Ret p /\
    made = [XOpen (method o) (url o) true;
            XSetWithCredentials (truthy (withCredentials o));
            XSetTimeout (timeout o)]
           ++ (if negb (bool_decide (responseType o = "")) &&
                  negb (bool_decide (responseType o = "json"))
               then [XSetResponseType (responseType o)] else [])
           ++ (header_call <$> map_to_list (headers o))
           ++ [XSend p].
Proof.
  unfold Request.setup, res_bind. intros H.
  repeat match type of H with
         | match ?m with Ret _ => _ | Throw _ => _ end = Ret _ =>
             let E := fresh "E" in
             destruct m eqn:E; [|discriminate]
         end.
  apply call_ret in E, E0, E1, H. apply set_headers_ret in E3.
  eexists. split; [reflexivity|]. subst.
  destruct (negb (bool_decide (responseType o = "")) &&
            negb (bool_decide (responseType o = "json"))).
  - apply call_ret in E2. subst. rewrite <- ?List.app_assoc. reflexivity.
  - injection E2 as <-. rewrite <- ?List.app_assoc. reflexivity.
Qed.

(** X6. When the setup block throws, be it a transport call or
    [JSON.stringify], the completion token is rejected with what was
    thrown, and no event that follows changes it. *)
Theorem setup_failure_rejects (o : RequestOptions) (e : jsval) (evs : list xhr_event) :
  setup o = Throw e ->
  token (run o evs (xhrRequest o)) = Rejected (RThrown e).
Proof.
  intros H. rewrite run_settled; unfold Request.xhrRequest; cbn [token]; now rewrite H.
Qed.

(** X7. When the setup block runs to its end, the request headers set
    on the transport are exactly the entries of the [headers] option,
    each name as given. *)
Theorem headers_set_verbatim (o : RequestOptions) (made : list xhr_call) (k v : string) :
  setup o = Ret made ->
  XSetRequestHeader k v ∈ made <-> headers o !! k = Some v.
Proof.
  intros H. destruct (setup_shape o made H) as (p & _ & ->).
  rewrite <- (elem_of_map_to_list (headers o) k v).
  rewrite !elem_of_app, list_elem_of_fmap. split.
  - intros [Hin | [Hin | [Hin | Hin]]].
    + repeat (apply elem_of_cons in Hin as [Hin|Hin]; [discriminate|]).
      now apply not_elem_of_nil in Hin.
    + destruct (_ && _); [|now apply not_elem_of_nil in Hin].
      apply list_elem_of_singleton in Hin. discriminate.
    + destruct Hin as ([k' v'] & Heq & Hin). unfold header_call in Heq.
      simpl in Heq. now injection Heq as -> ->.
    + apply list_elem_of_singleton in Hin. discriminate.
  - intros Hin. right. right. left. now exists (k, v).
Qed.

(** X8. When the setup block runs to its end, the decode mode of the
    transport is set exactly when the [responseType] option is neither
    empty nor ["json"], and then to that option: the wrapper never puts
    the transport itself in JSON mode. *)
Theorem response_type_set_unless_json (o : RequestOptions) (made : list xhr_call)
    (t : string) :
  setup o = Ret made ->
  XSetResponseType t ∈ made <->
  t = responseType o /\ t <> "" /\ t <> "json".
Proof.
  intros H. destruct (setup_shape o made H) as (p & _ & ->).
  rewrite !elem_of_app, list_elem_of_fmap. split.
  - intros [Hin | [Hin | [Hin | Hin]]].
    + repeat (apply elem_of_cons in Hin as [Hin|Hin]; [discriminate|]).
      now apply not_elem_of_nil in Hin.
    + destruct (negb _ && negb _) eqn:E; [|now apply not_elem_of_nil in Hin].
      apply list_elem_of_singleton in Hin. injection Hin as ->.
      apply andb_true_iff in E as [E1 E2].
      apply negb_true_iff, bool_decide_eq_false in E1, E2. auto.
    + destruct Hin as ([k' v'] & Heq & _). discriminate.
    + apply list_elem_of_singleton in Hin. discriminate.
  - intros (-> & H1 & H2). right. left.
    rewrite !bool_decide_eq_false_2 by assumption. apply list_elem_of_here.
Qed.

(** X9. When the setup block runs to its end, its first transport call
    opens the request with the method and the url of the options,
    every [open] is asynchronous, and [send] is called once. *)
Theorem opens_async_sends_once (o : RequestOptions) (made : list xhr_call) :
  setup o = Ret made ->
  head made = Some (XOpen (method o) (url o) true) /\
  (forall m u a, XOpen m u a ∈ made -> a = true) /\
  length (filter (fun c => is_send c = true) made) = 1%nat.
Proof.
  intros H. destruct (setup_shape o made H) as (p & _ & ->).
  split; [reflexivity|]. split.
  - intros m u a. rewrite !elem_of_app, list_elem_of_fmap.
    intros [Hin | [Hin | [Hin | Hin]]].
    + apply elem_of_cons in Hin as [Hin|Hin]; [now injection Hin|].
      repeat (apply elem_of_cons in Hin as [Hin|Hin]; [discriminate|]).
      now apply not_elem_of_nil in Hin.
    + destruct (_ && _); [|now apply not_elem_of_nil in Hin].
      apply list_elem_of_singleton in Hin. discriminate.
    + destruct Hin as ([k' v'] & Heq & _). discriminate.
    + apply list_elem_of_singleton in Hin. discriminate.
  - clear H. rewrite !filter_app.
    assert (forall l : list (string * string),
              filter (fun c => is_send c = true) (header_call <$> l) = []) as ->.
    { intros l. induction l as [|kv l IH]; [reflexivity|].
      cbn [fmap list_fmap]. rewrite filter_cons_False by discriminate. exact IH. }
    destruct (_ && _); reflexivity.
Qed.





(** X12. Without a chunk callback no event changes the offset or
    records a delivery. *)
Theorem no_callback_no_delivery (o : RequestOptions) (evs : list xhr_event)
    (st : state) :
  onChunk o = None ->
  chunks (run o evs st) = chunks st /\ lastIndex (run o evs st) = lastIndex st.
Proof.
  intros Hcb. unfold Request.run.
  revert st; induction evs as [|ev evs IH]; intros st; [now split|].
  cbn [foldl]. destruct (IH (fire o st ev)) as [-> ->].
  destruct ev as [x| | | |]; try (now split).
  rewrite fire_readystatechange. unfold Request.after_done, after_chunk.
  rewrite Hcb. destruct (readyState x =? 3), (readyState x =? 4); now split.
Qed.

(** X13. The completion token settles at most once: once a run has
    settled it, whatever events follow leave it as it is. *)
Theorem request_settles_once (o : RequestOptions) (evs later : list xhr_event)
    (st : state) :
  settled (token (run o evs st)) = true ->
  token (run o (evs ++ later) st) = token (run o evs st).
Proof.
  intros H. unfold Request.run. rewrite foldl_app.
  now apply (run_settled line_class JSON_parse xhr o later).
Qed.

(** X14. A request whose setup block ran to its end stays pending as
    long as the transport fires only progress events and state changes
    other than done. *)
Theorem pending_until_settled (o : RequestOptions) (made : list xhr_call)
    (evs : list xhr_event) :
  setup o = Ret made ->
  Forall (fun ev => settles ev = false) evs ->
  token (run o evs (xhrRequest o)) = Pending.
Proof.
  intros Hs Hevs. rewrite run_keeps_token by assumption.
  unfold Request.xhrRequest. cbn [token]. now rewrite Hs.
Qed.

(** X15. A 2xx response whose text [JSON.parse] refuses still resolves
    the request: with the [responseType] option ["json"] and the
    transport not in JSON mode, the body of the envelope is the raw
    text. *)
Theorem undecodable_body_still_resolves (o : RequestOptions) (x : XHRView)
    (st : state) (e : jsval) :
  token st = Pending ->
  readyState x = 4 ->
  200 <= status x < 300 ->
  xhr_responseType x <> "json" ->
  responseType o = "json" ->
  JSON_parse (if bool_decide (responseText x = "") then "null" else responseText x)
    = Throw e ->
  token (fire o st (EvReadyStateChange x)) =
    Fulfilled {| re_status := status x;
                 re_headers := parseHeaders (rawHeaders x);
                 re_body := VStr (responseText x);
                 re_xhr := xhr |}.
Proof.
  intros Hp H4 Hs Hx Ho Hparse.
  rewrite fire_readystatechange. unfold Request.after_done.
  assert ((readyState x =? 4) = true) as -> by lia.
  cbn [token]. rewrite token_after_chunk, Hp.
  rewrite (proj2 (is_2xx_true _) Hs). cbn [resolve].
  unfold success_envelope, parsedBody, decode_try.
  rewrite bool_decide_eq_false_2 by assumption.
  rewrite bool_decide_eq_true_2 by assumption.
  now rewrite Hparse.
Qed.

Local Abbreviation fire_xhr := (Request.fire_xhr line_class JSON_parse xhr).
Local Abbreviation run_xhr := (Request.run_xhr line_class JSON_parse xhr).

(** X22. With the getter of XMLHttpRequest and the transport in text
    mode, a done notification that reaches a pending request settles
    it by its status: for 2xx it resolves with the status, the parsed
    headers, the transport object and the body, which is what
    [JSON.parse] gives for the text (for ["null"] when the text is
    empty) or the raw text when [JSON.parse] throws if the
    [responseType] option is ["json"], and else [xhr.response] or, when
    that is falsy, the raw text; for any other status it rejects with
    the status, the status text, the raw text and the parsed headers. *)
Theorem done_settles_with_text (o : RequestOptions) (x : XHRView) (st : state) :
  token st = Pending ->
  readyState x = 4 ->
  text_readable x = true ->
  (200 <= status x < 300 ->
   token (fire_xhr o st (EvReadyStateChange x)) =
     Fulfilled
       {| re_status := status x;
          re_headers := parseHeaders (rawHeaders x);
          re_body :=
            if bool_decide (responseType o = "json")
            then match JSON_parse (if bool_decide (responseText x = "")
                                   then "null" else responseText x) with
                 | Ret v => v
                 | Throw _ => VStr (responseText x)
                 end
            else if truthy (response x) then response x
                 else VStr (responseText x);
          re_xhr := xhr |}) /\
  (~ 200 <= status x < 300 ->
   token (fire_xhr o st (EvReadyStateChange x)) =
     Rejected (RFailure {| fe_status := status x;
                           fe_statusText := statusText x;
                           fe_body := responseText x;
                           fe_headers := parseHeaders (rawHeaders x) |})).
Proof.
  intros Hp H4 Hr. pose proof (text_readable_not_json x Hr) as Hj.
  rewrite fire_xhr_text by assumption. rewrite fire_readystatechange.
  unfold Request.after_done.
  assert ((readyState x =? 4) = true) as -> by lia.
  cbn [token]. rewrite token_after_chunk, Hp. split; intros Hs.
  - rewrite (proj2 (is_2xx_true _) Hs). cbn [resolve].
    unfold Request.success_envelope, parsedBody, decode_try.
    rewrite (bool_decide_eq_false_2 _ Hj).
    destruct (bool_decide (responseType o = "json")); [|reflexivity].
    now destruct (JSON_parse _).
  - destruct (is_2xx (status x)) eqn:E; [|reflexivity].
    apply is_2xx_true in E. contradiction.
Qed.

(** X23. With the getter of XMLHttpRequest and the transport out of
    text mode, the done notification of a failure (a status that is
    not 2xx) throws at line 71 and settles nothing, so the event that
    follows it decides a pending request: [error], [timeout] and
    [abort] reject with the plain errors "Network error", "Timeout"
    and "Aborted", and nothing later changes that. *)
Theorem failure_without_text_rejects_plain (o : RequestOptions) (x : XHRView)
    (later : list xhr_event) (st : state) :
  token st = Pending ->
  readyState x = 4 ->
  ~ 200 <= status x < 300 ->
  text_readable x = false ->
  token (run_xhr o (EvReadyStateChange x :: EvError :: later) st)
    = Rejected (RError "Network error") /\
  token (run_xhr o (EvReadyStateChange x :: EvTimeout :: later) st)
    = Rejected (RError "Timeout") /\
  token (run_xhr o (EvReadyStateChange x :: EvAbort :: later) st)
    = Rejected (RError "Aborted").
Proof.
  intros Hp H4 Hs Hr.
  rewrite !run_xhr_cons, fire_xhr_no_text by assumption.
  rewrite !run_xhr_settled;
    unfold Request.fire_xhr; cbn; rewrite Hp; repeat split; reflexivity.
Qed.

End Setup.

Lemma setup_failure_rejects_witness :
  token (Request.run newline_class parse_only_null 7 (post_json "Content-Type")
           [EvReadyStateChange (done_view 200 "null")]
           (Request.xhrRequest stringify_braces send_throws (post_json "Content-Type")))
  = Rejected (RThrown (VStr "InvalidStateError")).
Proof. apply setup_failure_rejects. reflexivity. Defined.

Lemma headers_set_verbatim_witness :
  XSetRequestHeader "Content-Type" "application/json" ∈
    [XOpen "POST" "/api/items" true; XSetWithCredentials false;
     XSetTimeout 30000;
     XSetRequestHeader "Content-Type" "application/json";
     XSend (VStr "{}")].
Proof.
  apply (headers_set_verbatim stringify_braces never_throws (post_json "Content-Type"));
    reflexivity.
Defined.

Lemma response_type_set_unless_json_witness :
  ~ XSetResponseType "json" ∈
    [XOpen "POST" "/api/items" true; XSetWithCredentials false;
     XSetTimeout 30000;
     XSetRequestHeader "Content-Type" "application/json";
     XSend (VStr "{}")].
Proof.
  intros Hin.
  apply (response_type_set_unless_json stringify_braces never_throws
           (post_json "Content-Type")) in Hin; [|reflexivity].
  now destruct Hin as (_ & _ & Hne).
Defined.

Lemma opens_async_sends_once_witness :
  head [XOpen "POST" "/api/items" true; XSetWithCredentials false;
        XSetTimeout 30000;
        XSetRequestHeader "Content-Type" "application/json";
        XSend (VStr "{}")] = Some (XOpen "POST" "/api/items" true).
Proof.
  apply (opens_async_sends_once stringify_braces never_throws (post_json "Content-Type")).
  reflexivity.
Defined.


Lemma no_callback_no_delivery_witness :
  chunks (Request.run newline_class parse_only_null 7 (post_json "Content-Type")
            [EvReadyStateChange (loading "abc")]
            (Request.xhrRequest stringify_braces never_throws (post_json "Content-Type")))
  = [].
Proof.
  apply (no_callback_no_delivery newline_class parse_only_null 7 (post_json "Content-Type")).
  reflexivity.
Defined.

Lemma request_settles_once_witness :
  let o := post_json "Content-Type" in
  let st := Request.xhrRequest stringify_braces never_throws o in
  token (Request.run newline_class parse_only_null 7 o
           ([EvTimeout] ++ [EvReadyStateChange (done_view 200 "null")]) st) =
  token (Request.run newline_class parse_only_null 7 o [EvTimeout] st).
Proof.
  intros o st. apply (request_settles_once newline_class parse_only_null 7 o). reflexivity.
Defined.

Lemma pending_until_settled_witness :
  token (Request.run newline_class parse_only_null 7 (post_json "Content-Type")
           [EvProgress; EvReadyStateChange (loading "ab"); EvProgress]
           (Request.xhrRequest stringify_braces never_throws (post_json "Content-Type")))
  = Pending.
Proof.
  eapply (pending_until_settled newline_class parse_only_null stringify_braces never_throws 7).
  - reflexivity.
  - repeat constructor.
Defined.

Lemma undecodable_body_still_resolves_witness :
  let o := post_json "Content-Type" in
  token (Request.fire newline_class parse_only_null 7 o
           (Request.xhrRequest stringify_braces never_throws o)
           (EvReadyStateChange (done_view 200 "<html>"))) =
  Fulfilled {| re_status := 200;
               re_headers := parseHeaders newline_class (Some "X-Id: 7");
               re_body := VStr "<html>";
               re_xhr := 7 |}.
Proof.
  intros o.
  apply (undecodable_body_still_resolves newline_class parse_only_null 7 o (done_view 200 "<html>")
           _ (VStr "SyntaxError")); try reflexivity; try discriminate.
  simpl. lia.
Defined.

Lemma done_settles_with_text_witness :
  let o := post_json "Content-Type" in
  let st := Request.xhrRequest stringify_braces never_throws o in
  token (Request.fire_xhr newline_class parse_only_null 7 o st
           (EvReadyStateChange (done_view 204 ""))) =
    Fulfilled {| re_status := 204;
                 re_headers := parseHeaders newline_class (Some "X-Id: 7");
                 re_body := VNull;
                 re_xhr := 7 |} /\
  token (Request.fire_xhr newline_class parse_only_null 7 o st
           (EvReadyStateChange (done_view 404 "gone"))) =
    Rejected (RFailure {| fe_status := 404;
                          fe_statusText := "";
                          fe_body := "gone";
                          fe_headers := parseHeaders newline_class (Some "X-Id: 7") |}).
Proof.
  intros o st. split.
  - refine (proj1 (done_settles_with_text newline_class parse_only_null 7 o
                     (done_view 204 "") st _ _ _) _);
      try reflexivity; simpl; lia.
  - refine (proj2 (done_settles_with_text newline_class parse_only_null 7 o
                     (done_view 404 "gone") st _ _ _) _);
      try reflexivity; simpl; lia.
Defined.

Lemma failure_without_text_rejects_plain_witness :
  let o := get_as "arraybuffer" in
  let st := Request.xhrRequest stringify_braces never_throws o in
  token (Request.run_xhr newline_class parse_only_null 7 o
           (failure_run "arraybuffer" EvTimeout) st) = Rejected (RError "Timeout").
Proof.
  intros o st.
  refine (proj1 (proj2 (failure_without_text_rejects_plain newline_class
                          parse_only_null 7 o (error_view "arraybuffer") [] st _ _ _ _)));
    try reflexivity; simpl; lia.
Defined.

End RequestMore.

(* ===================================================================== *)
(** ** More about XHRPool                                                 *)
(* ===================================================================== *)

Module PoolMore.
Import JS Pool PoolFacts.

Lemma next_from_tokens_dom (q : list PoolJob) (w : world) (j : nat) :
  is_Some (tokens (next_from q w) !! j) <-> is_Some (tokens w !! j).
Proof.
  functional induction (next_from q w); simpl in *; try reflexivity.
  rewrite IHw0. apply lookup_alter_is_Some.
Qed.

Lemma reject_not_pending (e : jsval) (p : promise PoolResult jsval) :
  reject e p <> Pending.
Proof. now destruct p. Qed.

Lemma resolve_not_pending (v : PoolResult) (p : promise PoolResult jsval) :
  resolve v p <> Pending.
Proof. now destruct p. Qed.

Lemma alter_not_pending (f : promise PoolResult jsval -> promise PoolResult jsval)
    (j : nat) (tk : gmap nat (promise PoolResult jsval)) :
  (forall p, f p <> Pending) -> alter f j tk !! j <> Some Pending.
Proof.
  intros Hf. rewrite lookup_alter_eq. destruct (tk !! j) as [p|]; simpl; [|discriminate].
  intros [= H]. now apply (Hf p).
Qed.

Lemma next_from_pending (q : list PoolJob) (w : world) :
  NoDup (job_id <$> q) ->
  (forall j, j ∈ job_id <$> q -> running w !! j = None) ->
  (forall j, tokens w !! j = Some Pending <->
             j ∈ job_id <$> q \/ is_Some (running w !! j)) ->
  forall j, tokens (next_from q w) !! j = Some Pending <->
            j ∈ queued_ids (next_from q w) \/ is_Some (running (next_from q w) !! j).
Proof.
  unfold queued_ids.
  functional induction (next_from q w); simpl in *.
  - auto.
  - auto.
  - intros Hnd Hfresh H j. rewrite H, elem_of_cons.
    destruct (decide (job_id job = j)) as [<-|Hne].
    + rewrite lookup_insert_eq. split; intros _; [right; eauto | left; now left].
    + rewrite lookup_insert_ne by done. split.
      * intros [[->|Hj]|Hj]; [contradiction | now left | now right].
      * intros [Hj|Hj]; [left; now right | now right].
  - intros Hnd Hfresh H. apply NoDup_cons in Hnd as [Hhead Hnd].
    apply IHw0; [exact Hnd | |].
    + intros j Hj. apply Hfresh. now apply list_elem_of_further.
    + intros j. destruct (decide (job_id job = j)) as [<-|Hne].
      * split.
        -- intros Hp. exfalso. revert Hp. apply alter_not_pending.
           apply reject_not_pending.
        -- intros [Hj|Hj]; [contradiction|].
           rewrite Hfresh in Hj by apply list_elem_of_here. now destruct Hj.
      * rewrite lookup_alter_ne by done. rewrite H, elem_of_cons. split.
        -- intros [[->|Hj]|Hj]; [contradiction | now left | now right].
        -- intros [Hj|Hj]; [left; now right | now right].
Qed.

Lemma next_accounted (w : world) : wf w -> accounted w -> accounted (_next w).
Proof.
  intros Hw Ha. destruct (wf_queue_fresh w Hw) as [Hnd Hfresh]. unfold _next. split.
  - intros j. rewrite next_from_tokens_dom, next_from_next_id. apply (acc_dom w Ha).
  - apply next_from_pending; [exact Hnd | exact Hfresh | apply (acc_pending w Ha)].
Qed.

(** The world in which a handler of lines 119-128 calls [_next]. *)
Lemma settle_accounted (j : nat) (x : jsval) (w : world)
    (f : promise PoolResult jsval -> promise PoolResult jsval) :
  (forall p, f p <> Pending) ->
  wf w -> accounted w -> running w !! j = Some x ->
  let w0 := {| pool := {| concurrency := concurrency (pool w);
                          active := active (pool w) - 1;
                          queue := queue (pool w) |};
               tokens := alter f j (tokens w);
               running := delete j (running w);
               admitted := admitted w; next_id := next_id w |} in
  wf w0 /\ accounted w0.
Proof.
  intros Hf Hw Ha Hj w0.
  destruct (wf_queue_fresh w Hw) as [Hnd Hfresh].
  assert (j ∉ queued_ids w) as Hnq.
  { intros Hq. specialize (Hfresh j Hq). congruence. }
  split; split; simpl.
  - apply (wf_fifo w Hw).
  - apply (wf_guard w Hw).
  - pose proof (wf_bound w Hw). lia.
  - pose proof (wf_count w Hw). lia.
  - intros k Hk. apply (wf_running w Hw).
    destruct (decide (j = k)) as [->|Hne].
    + rewrite lookup_delete_eq in Hk. now destruct Hk.
    + now rewrite lookup_delete_ne in Hk.
  - rewrite (wf_active w Hw).
    assert (size (running w) = S (size (delete j (running w)))) as ->; [|lia].
    rewrite <- (insert_delete_id (running w) j x Hj) at 1.
    apply map_size_insert_None, lookup_delete_eq.
  - intros k Hk. rewrite lookup_alter_ne; [now apply (wf_pending w Hw)|].
    intros ->. contradiction.
  - intros k. rewrite lookup_alter_is_Some. apply (acc_dom w Ha).
  - intros k. unfold queued_ids. simpl. fold (queued_ids w).
    destruct (decide (j = k)) as [<-|Hne].
    + rewrite lookup_delete_eq. split.
      * intros Hp. exfalso. revert Hp. now apply alter_not_pending.
      * intros [Hq|Hr]; [contradiction | now destruct Hr].
    + rewrite lookup_alter_ne, lookup_delete_ne by done. apply (acc_pending w Ha).
Qed.

Lemma enqueue_pre_wf (f : factory_outcome) (w : world) :
  wf w -> accounted w ->
  let w0 := {| pool := {| concurrency := concurrency (pool w);
                          active := active (pool w);
                          queue := queue (pool w) ++
                                   [{| job_id := next_id w; createTaskFn := f |}] |};
               tokens := <[next_id w := Pending]> (tokens w);
               running := running w;
               admitted := admitted w; next_id := S (next_id w) |} in
  wf w0 /\ accounted w0.
Proof.
  intros Hw Ha w0.
  assert (forall j, j ∈ queued_ids w0 <-> j ∈ queued_ids w \/ j = next_id w) as Hq.
  { intros j. unfold queued_ids. simpl. rewrite fmap_app, elem_of_app.
    simpl. now rewrite list_elem_of_singleton. }
  assert (forall j, j ∈ queued_ids w -> (j < next_id w)%nat) as Hlt.
  { intros j Hj. assert (j ∈ seq 0 (next_id w)) as Hs.
    { rewrite <- (wf_fifo w Hw). apply elem_of_app. now right. }
    apply elem_of_seq in Hs. lia. }
  split; split.
  - pose proof (wf_fifo w Hw) as Hf.
    unfold admitted_ids, queued_ids in *. cbn [w0 pool queue admitted next_id].
    rewrite fmap_app, List.app_assoc, Hf, seq_S. reflexivity.
  - apply (wf_guard w Hw).
  - apply (wf_bound w Hw).
  - simpl. rewrite length_app. simpl. pose proof (wf_count w Hw). lia.
  - apply (wf_running w Hw).
  - apply (wf_active w Hw).
  - intros j Hj. apply Hq in Hj as [Hj | ->]; simpl.
    + rewrite lookup_insert_ne by (specialize (Hlt j Hj); lia).
      now apply (wf_pending w Hw).
    + apply lookup_insert_eq.
  - intros j. simpl. destruct (decide (next_id w = j)) as [<-|Hne].
    + rewrite lookup_insert_eq. split; [lia | eauto].
    + rewrite lookup_insert_ne by done. rewrite (acc_dom w Ha). lia.
  - intros j. rewrite Hq. simpl. destruct (decide (next_id w = j)) as [<-|Hne].
    + rewrite lookup_insert_eq. split; [intros _; left; now right | reflexivity].
    + rewrite lookup_insert_ne by done. rewrite (acc_pending w Ha). split.
      * intros [Hj|Hj]; [left; now left | now right].
      * intros [[Hj|Hj]|Hj]; [now left | congruence | now right].
Qed.

Lemma step_accounted (w : world) (ev : event) :
  wf w -> accounted w -> accounted (step w ev).
Proof.
  intros Hw Ha. destruct ev as [f|j r|j err]; simpl.
  - unfold enqueue. destruct (enqueue_pre_wf f w Hw Ha) as [Hw0 Ha0].
    now apply next_accounted.
  - unfold on_fulfilled. destruct (running w !! j) as [x|] eqn:E; [|exact Ha].
    destruct (settle_accounted j x w (resolve {| result := r; xhr := x |})
                (resolve_not_pending _) Hw Ha E) as [Hw0 Ha0].
    now apply next_accounted.
  - unfold on_rejected. destruct (running w !! j) as [x|] eqn:E; [|exact Ha].
    destruct (settle_accounted j x w (reject err)
                (reject_not_pending _) Hw Ha E) as [Hw0 Ha0].
    now apply next_accounted.
Qed.

Lemma run_accounted (c : option Z) (evs : list event) :
  wf (run_pool c evs) /\ accounted (run_pool c evs).
Proof.
  induction evs as [|ev evs [Hw Ha]] using rev_ind.
  - destruct (new_world_wf c) as [Hw _]. split; [exact Hw|]. split.
    + intros j. simpl. rewrite lookup_empty. split; [now intros [] | lia].
    + intros j. simpl. rewrite !lookup_empty. unfold queued_ids. simpl. split.
      * discriminate.
      * intros [H|[? H]]; [now apply not_elem_of_nil in H | discriminate].
  - rewrite run_snoc. split; [now apply step_wf | now apply step_accounted].
Qed.

(** X16. In any run, every submission made so far has a promise, and
    that promise is pending exactly while the job waits in the queue or
    its task runs; no job does both. *)
Theorem every_submission_accounted (c : option Z) (evs : list event) (j : nat) :
  let w := run_pool c evs in
  (is_Some (tokens w !! j) <-> (j < next_id w)%nat) /\
  (tokens w !! j = Some Pending <-> j ∈ queued_ids w \/ is_Some (running w !! j)) /\
  ~ (j ∈ queued_ids w /\ is_Some (running w !! j)).
Proof.
  intros w. destruct (run_accounted c evs) as [Hw Ha]. fold w in Hw, Ha.
  split; [apply (acc_dom w Ha) | split; [apply (acc_pending w Ha)|]].
  intros [Hq [x Hr]]. destruct (wf_queue_fresh w Hw) as [_ Hfresh].
  specialize (Hfresh j Hq). congruence.
Qed.

(** X17. In any run, no factory is invoked twice and no job waits
    twice: the admitted jobs are pairwise distinct, so are the waiting
    ones, and no admitted job waits. *)
Theorem factories_invoked_at_most_once (c : option Z) (evs : list event) :
  let w := run_pool c evs in
  NoDup (admitted_ids w) /\ NoDup (queued_ids w) /\
  (forall j, j ∈ admitted_ids w -> j ∉ queued_ids w).
Proof.
  intros w. destruct (run_accounted c evs) as [Hw _]. fold w in Hw.
  pose proof (NoDup_seq 0 (next_id w)) as Hnd.
  rewrite <- (wf_fifo w Hw) in Hnd.
  apply NoDup_app in Hnd as (H1 & H2 & H3). auto.
Qed.

(** X18. When the task of a running job is fulfilled with [r], the
    promise of that job resolves with [r] and the [xhr] of the task;
    when it is rejected with [err], the promise is rejected with
    [err]. The promise of any other job is as before, unless that job
    waits with a factory that throws. *)
Theorem completion_settles_its_token (c : option Z) (evs : list event)
    (j : nat) (x r err : jsval) :
  let w := run_pool c evs in
  running w !! j = Some x ->
  tokens (step w (TaskFulfilled j r)) !! j =
    Some (Fulfilled {| result := r; xhr := x |}) /\
  tokens (step w (TaskRejected j err)) !! j = Some (Rejected err) /\
  (forall k ev, k <> j -> ev = TaskFulfilled j r \/ ev = TaskRejected j err ->
     (forall job, job ∈ queue (pool w) -> throws job -> job_id job <> k) ->
     tokens (step w ev) !! k = tokens w !! k).
Proof.
  intros w Hj. destruct (run_accounted c evs) as [Hw Ha]. fold w in Hw, Ha.
  assert (tokens w !! j = Some Pending) as Hp.
  { apply (acc_pending w Ha). right. eauto. }
  repeat split.
  - simpl. unfold on_fulfilled, _next. rewrite Hj.
    apply next_from_tokens_settled; [|reflexivity].
    simpl. now rewrite lookup_alter_eq, Hp.
  - simpl. unfold on_rejected, _next. rewrite Hj.
    apply next_from_tokens_settled; [|reflexivity].
    simpl. now rewrite lookup_alter_eq, Hp.
  - intros k ev Hk [-> | ->] Hfree; simpl.
    + unfold on_fulfilled, _next. rewrite Hj.
      rewrite next_from_tokens_frame by exact Hfree.
      simpl. now rewrite lookup_alter_ne.
    + unfold on_rejected, _next. rewrite Hj.
      rewrite next_from_tokens_frame by exact Hfree.
      simpl. now rewrite lookup_alter_ne.
Qed.

Lemma step_keeps_settled (w : world) (ev : event) (j : nat)
    (p : promise PoolResult jsval) :
  accounted w -> tokens w !! j = Some p -> settled p = true ->
  tokens (step w ev) !! j = Some p.
Proof.
  intros Ha Hj Hp. destruct ev as [f|k r|k err]; simpl.
  - unfold enqueue, _next. apply next_from_tokens_settled; [|exact Hp].
    simpl. rewrite lookup_insert_ne; [exact Hj|].
    assert (j < next_id w)%nat by (apply (acc_dom w Ha); eauto). lia.
  - unfold on_fulfilled, _next. destruct (running w !! k); [|exact Hj].
    apply next_from_tokens_settled; [|exact Hp]. simpl.
    destruct (decide (k = j)) as [->|Hne].
    + rewrite lookup_alter_eq, Hj. simpl. now destruct p.
    + now rewrite lookup_alter_ne.
  - unfold on_rejected, _next. destruct (running w !! k); [|exact Hj].
    apply next_from_tokens_settled; [|exact Hp]. simpl.
    destruct (decide (k = j)) as [->|Hne].
    + rewrite lookup_alter_eq, Hj. simpl. now destruct p.
    + now rewrite lookup_alter_ne.
Qed.

(** X19. The promise of a submission settles at most once: once it is
    resolved or rejected in a run, it is the same after any further
    events. *)
Theorem pool_token_settles_once (c : option Z) (evs later : list event) (j : nat)
    (p : promise PoolResult jsval) :
  tokens (run_pool c evs) !! j = Some p ->
  settled p = true ->
  tokens (run_pool c (evs ++ later)) !! j = Some p.
Proof.
  intros Hj Hp. induction later as [|ev later IH] using rev_ind.
  - now rewrite app_nil_r.
  - rewrite List.app_assoc, run_snoc.
    destruct (run_accounted c (evs ++ later)) as [_ Ha].
    now apply step_keeps_settled.
Qed.

Lemma next_from_returns (q : list PoolJob) (w : world) :
  Forall returns q ->
  active (pool w) = Z.of_nat (length (admitted w)) ->
  active (pool (next_from q w)) = Z.of_nat (length (admitted (next_from q w))) /\
  Forall returns (queue (pool (next_from q w))).
Proof.
  functional induction (next_from q w); simpl in *; auto.
  - intros Hq Ha. inversion Hq; subst. rewrite length_app. simpl. split; [lia|assumption].
  - intros Hq _. inversion Hq as [|? ? [x Hx] _]; subst. congruence.
Qed.

Lemma run_submit_all (c : option Z) (xs : list jsval) :
  let w := run_pool c (submit_all xs) in
  active (pool w) = Z.of_nat (length (admitted w)) /\
  Forall returns (queue (pool w)) /\
  next_id w = length xs.
Proof.
  induction xs as [|x xs IH] using rev_ind.
  - cbn. repeat split. constructor.
  - unfold submit_all in *. rewrite fmap_app. cbn [fmap list_fmap].
    rewrite run_snoc. destruct IH as (Ha & Hq & Hn).
    cbn [step]. unfold enqueue, _next.
    match goal with |- context [next_from ?q ?w0] =>
      destruct (next_from_returns q w0) as [Ha' Hq'] end.
    + cbn [pool queue]. apply Forall_app. split; [exact Hq|].
      repeat constructor. now exists x.
    + exact Ha.
    + cbv zeta. split; [exact Ha' | split; [exact Hq'|]].
      rewrite next_from_next_id. cbn [next_id]. rewrite Hn, length_app. simpl. lia.
Qed.

(** X20. After [m] submissions whose factories all return a task, and
    no completion yet, a pool of limit [n] runs the first [min n m] of
    them ([0] of them for a limit below 1) and the others wait in
    submission order; the default limit is 4. *)
Theorem submissions_fill_the_slots (c : option Z) (xs : list jsval) :
  let w := run_pool c (submit_all xs) in
  let a := Z.to_nat (Z.min (Z.max 0 (default 4 c)) (Z.of_nat (length xs))) in
  active (pool w) = Z.of_nat a /\
  admitted_ids w = seq 0 a /\
  queued_ids w = seq a (length xs - a).
Proof.
  intros w a.
  destruct (run_submit_all c xs) as (Ha & _ & Hn). fold w in Ha, Hn.
  destruct (run_invariant c (submit_all xs)) as (Hw & Hs & Hc). fold w in Hw, Hs, Hc.
  pose proof (wf_fifo w Hw) as Hf. pose proof (wf_bound w Hw) as Hb.
  rewrite Hc in Hb. rewrite Hn in Hf.
  assert (length (admitted_ids w) + length (queued_ids w) = length xs)%nat as Hlen.
  { rewrite <- length_app, Hf. apply length_seq. }
  unfold admitted_ids, queued_ids in Hlen. rewrite !length_fmap in Hlen.
  assert (length (admitted w) = a) as Hadm.
  { subst a. destruct Hs as [Hq | Hs].
    - rewrite Hq in Hlen. simpl in Hlen. lia.
    - rewrite Hc in Hs. lia. }
  split; [now rewrite Ha, Hadm|].
  assert (length (admitted_ids w) = a) as Hla
    by (unfold admitted_ids; now rewrite length_fmap).
  split.
  - rewrite <- (take_app_length (admitted_ids w) (queued_ids w)), Hf, Hla.
    rewrite take_seq. f_equal. lia.
  - rewrite <- (drop_app_length (admitted_ids w) (queued_ids w)), Hf, Hla.
    now rewrite drop_seq.
Qed.

(** X21. In any run, when a job whose factory returns a task heads the
    queue and a running task completes or fails, that job is admitted
    in the same step: it leaves the queue, its task runs, and [active]
    is what it was. *)
Theorem completion_admits_next_waiting (c : option Z) (evs : list event)
    (ev : event) (job : PoolJob) (rest : list PoolJob) (x : jsval) :
  let w := run_pool c evs in
  queue (pool w) = job :: rest ->
  createTaskFn job = FReturns x ->
  is_settle ev w ->
  queue (pool (step w ev)) = rest /\
  admitted_ids (step w ev) = admitted_ids w ++ [job_id job] /\
  active (pool (step w ev)) = active (pool w) /\
  running (step w ev) !! job_id job = Some x.
Proof.
  intros w Hq Hf Hev.
  destruct (run_invariant c evs) as (Hw & Hs & _). fold w in Hw, Hs.
  assert (concurrency (pool w) <= active (pool w)) as Hfull.
  { destruct Hs as [Hs|Hs]; [congruence | exact Hs]. }
  pose proof (wf_bound w Hw) as Hb.
  assert (forall (w0 : world),
            concurrency (pool w0) = concurrency (pool w) ->
            active (pool w0) = active (pool w) - 1 ->
            queue (pool w0) = queue (pool w) ->
            admitted w0 = admitted w ->
            queue (pool (_next w0)) = rest /\
            admitted_ids (_next w0) = admitted_ids w ++ [job_id job] /\
            active (pool (_next w0)) = active (pool w) /\
            running (_next w0) !! job_id job = Some x) as Hnext.
  { intros w0 Hc0 Ha0 Hq0 Hadm0. unfold _next. rewrite Hq0, Hq.
    rewrite next_from_equation.
    assert ((concurrency (pool w0) <=? active (pool w0)) = false) as ->.
    { apply Z.leb_gt. rewrite Hc0, Ha0.
      destruct ev as [g|k r|k err]; simpl in Hev; [contradiction| |];
        destruct Hev as [y Hy];
        pose proof (wf_active w Hw) as Hact;
        assert (size (running w) <> 0%nat) as Hsz
          by (apply map_size_ne_0_lookup_2 with k; eauto); lia. }
    rewrite Hf. unfold admitted_ids. simpl.
    rewrite Hadm0, Ha0, fmap_app, lookup_insert_eq. simpl.
    repeat split; try reflexivity. lia. }
  destruct ev as [g|k r|k err]; simpl in Hev; [contradiction| |];
    destruct Hev as [y Hy]; simpl.
  - unfold on_fulfilled. rewrite Hy. now apply Hnext.
  - unfold on_rejected. rewrite Hy. now apply Hnext.
Qed.

Lemma completion_settles_its_token_witness :
  tokens (step (run_pool (Some 2) sample_events) (TaskFulfilled 3 (VNum 9))) !! 3%nat =
    Some (Fulfilled {| result := VNum 9; xhr := VNull |}).
Proof.
  apply (completion_settles_its_token (Some 2) sample_events 3 VNull (VNum 9) VNull).
  reflexivity.
Defined.

Lemma pool_token_settles_once_witness :
  tokens (run_pool (Some 2) (sample_events ++ [TaskFulfilled 3 (VNum 9)])) !! 1%nat =
    Some (Rejected (VNum 7)).
Proof. apply pool_token_settles_once; reflexivity. Defined.

Lemma completion_admits_next_waiting_witness :
  let four := submit_all [VNull; VNull; VNull; VNull] in
  queue (pool (step (run_pool (Some 2) four) (TaskRejected 0 VNull))) =
    [{| job_id := 3%nat; createTaskFn := FReturns VNull |}].
Proof.
  intros four.
  apply (completion_admits_next_waiting (Some 2) four (TaskRejected 0 VNull)
           {| job_id := 2%nat; createTaskFn := FReturns VNull |} _ VNull).
  - reflexivity.
  - reflexivity.
  - simpl. eexists. reflexivity.
Defined.

End PoolMore.
